(** * Shared mortgage amortization: the engine of [streamlit_app.py]

    A shallow embedding of [amortization_shared] and the properties of its
    schedule and yearly roll-up, with the labels of the two tables and the
    use the page makes of them (the handler of the button and its first
    metrics).

    Numbers.  The Python code computes on binary64 floats.  Here every
    float is an exact rational ([Q]); [==] is equality of rationals.  The
    tolerance [1e-6] of the loop guard is the rational 1/1000000, [round]
    is rounding to the nearest multiple of [10^-ndigits] with ties to the
    even multiple, and Python's [sum] is the left fold of [+] from 0.
    What depends on the rounding error of binary64 arithmetic itself, or
    on its overflow, is outside this model.

    Exceptions.  A Python division by zero raises [ZeroDivisionError]; the
    two [raise ValueError(...)] statements carry their messages.  The
    specification calls the first [InvalidInput] and the second
    [InsufficientPayment].

    The loop.  [while balance > 1e-6] has no bound on its iterations, so
    the loop takes a fuel argument and answers [Unfinished] when the fuel
    does not suffice. *)

From Stdlib Require Import String.
From Stdlib Require DecimalString DecimalNat Floats.
From Stdlib Require Import QArith Qround Qabs Qpower ZArith List Lia Lqa Bool.
Import ListNotations.
Open Scope Q_scope.

(** ** Outcomes of a call *)

Inductive exception : Type :=
| ValueError (msg : string)
| ZeroDivisionError
| OverflowError.

Definition InvalidInput : exception :=
  ValueError "monthly_contrib and downpayments must have the same length"%string.

Definition InsufficientPayment : exception :=
  ValueError "Monthly contributions are insufficient to cover interest."%string.

Inductive outcome (A : Type) : Type :=
| Returns (a : A)
| Raises (e : exception)
| Unfinished.

Arguments Returns {A} a.
Arguments Raises {A} e.
Arguments Unfinished {A}.

Definition bind {A B : Type} (c : outcome A) (k : A -> outcome B) : outcome B :=
  match c with
  | Returns a => k a
  | Raises e => Raises e
  | Unfinished => Unfinished
  end.

Notation "x <- c ;; k" := (bind c (fun x => k))
  (at level 61, c at next level, right associativity).

Fixpoint mapM {A B : Type} (f : A -> outcome B) (l : list A) : outcome (list B) :=
  match l with
  | [] => Returns []
  | a :: l' => b <- f a ;; bs <- mapM f l' ;; Returns (b :: bs)
  end.

(** ** Float operations of the source, on rationals *)

Definition Qltb (x y : Q) : bool := negb (Qle_bool y x).

(** [x / y] *)
Definition div (x y : Q) : outcome Q :=
  if Qeq_bool y 0 then Raises ZeroDivisionError else Returns (x / y).

(** [x ** n] for an [int] exponent *)
Definition pow (x : Q) (n : Z) : outcome Q :=
  if Qeq_bool x 0 && (n <? 0)%Z then Raises ZeroDivisionError
  else Returns (x ^ n).

(** [sum(l)] *)
Definition sum (l : list Q) : Q := fold_left Qplus l 0.

(** The integer nearest to [y], ties to the even one. *)
Definition half_even (y : Q) : Z :=
  let f := Qfloor y in
  match Qcompare (y - inject_Z f) (1 # 2) with
  | Lt => f
  | Gt => (f + 1)%Z
  | Eq => if Z.even f then f else (f + 1)%Z
  end.

(** [round(x, ndigits)] *)
Definition round (x : Q) (ndigits : Z) : Q :=
  inject_Z (half_even (x * 10 ^ ndigits)) / 10 ^ ndigits.

(** Half a unit in the last kept decimal place. *)
Definition half_unit (ndigits : Z) : Q := (1 # 2) / 10 ^ ndigits.

(** The literal [1e-6] of the loop guard. *)
Definition EPSILON : Q := 1 # 1000000.

(** ** Data *)

(** One row of [rows], in the order of [cols]: ["Payment #"],
    ["Principal Paid"], ["Interest Paid"], ["Loan Balance"] and one
    ["Equity Borrower i"] per borrower.  The column ["Year"] that the
    roll-up adds to the schedule is the function [year_of] below. *)
Record Row : Type := mkRow {
  pmt_no : Z;
  principal_paid : Q;
  interest_paid : Q;
  loan_balance : Q;
  equity : list Q
}.

(** One row of [yearly].  A share is [None] where pandas divides by a
    zero total and stores NaN or an infinity. *)
Record YearRow : Type := mkYearRow {
  year : Z;
  year_equity : list Q;
  year_loan_balance : Q;
  total_equity : Q;
  share : list (option Q)
}.

(** The variables the loop updates; [count] is the variable [pmt_no]. *)
Record LoopState : Type := mkState {
  balance : Q;
  cum_equity : list Q;
  count : Z;
  rows : list Row
}.

(** What one period computes before the state is updated; [paid] is the
    variable [principal_paid] as it stands after the trim. *)
Record Allocation : Type := mkAllocation {
  interest_due : Q;
  contrib_sum : Q;
  interest_parts : list Q;
  principal_parts0 : list Q;   (* before trimming *)
  principal_paid0 : Q;         (* before trimming *)
  principal_parts : list Q;    (* after trimming *)
  paid : Q                     (* [principal_paid] after trimming *)
}.

(** ** The loop body *)

(** [[f(x, y) for x, y in zip(a, b)]] *)
Definition zip_with (f : Q -> Q -> Q) (a b : list Q) : list Q :=
  map (fun p => f (fst p) (snd p)) (combine a b).

(** [[c / contrib_sum * interest_due for c in monthly_contrib]] *)
Definition prorate (monthly_contrib : list Q) (csum idue : Q) : outcome (list Q) :=
  mapM (fun c => q <- div c csum ;; Returns (q * idue)) monthly_contrib.

(** The final-month trim (lines 65-68): the parts and [principal_paid] as
    they stand after it. *)
Definition trim (bal : Q) (parts : list Q) (ppaid : Q) : outcome (list Q * Q) :=
  if Qltb bal ppaid then
    scale <- div bal ppaid ;;
    Returns (map (fun p => p * scale) parts, bal)
  else Returns (parts, ppaid).

(** Lines 54-68 of the body: the interest due, the coverage check, the
    proration of the interest and the principal parts. *)
Definition allocate (m_rate : Q) (monthly_contrib : list Q) (bal : Q)
  : outcome Allocation :=
  let idue := bal * m_rate in
  let csum := sum monthly_contrib in
  if Qltb csum idue then Raises InsufficientPayment
  else
    iparts <- prorate monthly_contrib csum idue ;;
    let pparts := zip_with Qminus monthly_contrib iparts in
    let ppaid := sum pparts in
    tr <- trim bal pparts ppaid ;;
    Returns (mkAllocation idue csum iparts pparts ppaid (fst tr) (snd tr)).

(** Lines 53 and 70-77: the payment is numbered and booked, the rounded
    row appended. *)
Definition commit (rounding : Z) (st : LoopState) (a : Allocation) : LoopState :=
  let n := (count st + 1)%Z in
  let bal := balance st - paid a in
  let eq := zip_with Qplus (cum_equity st) (principal_parts a) in
  mkState bal eq n
    (rows st ++
       [mkRow n (round (paid a) rounding) (round (interest_due a) rounding)
          (round bal rounding) (map (fun e => round e rounding) eq)]).

Definition period (m_rate : Q) (monthly_contrib : list Q) (rounding : Z)
    (st : LoopState) : outcome LoopState :=
  a <- allocate m_rate monthly_contrib (balance st) ;;
  Returns (commit rounding st a).

(** [while balance > 1e-6: ...] *)
Fixpoint loop (fuel : nat) (m_rate : Q) (monthly_contrib : list Q)
    (rounding : Z) (st : LoopState) : outcome LoopState :=
  if Qltb EPSILON (balance st) then
    match fuel with
    | O => Unfinished
    | S fuel' =>
        st' <- period m_rate monthly_contrib rounding st ;;
        loop fuel' m_rate monthly_contrib rounding st'
    end
  else Returns st.

(** ** The yearly roll-up *)

(** [(schedule["Payment #"] - 1) // 12 + 1] *)
Definition year_of (r : Row) : Z := ((pmt_no r - 1) / 12 + 1)%Z.

(** [groupby("Year")] with ["last"]: groups in ascending order of the key,
    each keeping the last row that carries the key. *)
Fixpoint put_last (y : Z) (r : Row) (groups : list (Z * Row)) : list (Z * Row) :=
  match groups with
  | [] => [(y, r)]
  | (y', r') :: rest =>
      if (y <? y')%Z then (y, r) :: groups
      else if (y =? y')%Z then (y, r) :: rest
      else (y', r') :: put_last y r rest
  end.

Definition groupby_last (schedule : list Row) : list (Z * Row) :=
  fold_left (fun groups r => put_last (year_of r) r groups) schedule [].

(** A column divided by ["Total Equity"]. *)
Definition share_of (total e : Q) : option Q :=
  if Qeq_bool total 0 then None else Some (e / total).

Definition year_row (g : Z * Row) : YearRow :=
  let eqs := equity (snd g) in
  let total := sum eqs in
  mkYearRow (fst g) eqs (loan_balance (snd g)) total (map (share_of total) eqs).

Definition rollup (schedule : list Row) : list YearRow :=
  map year_row (groupby_last schedule).

(** ** [amortization_shared] *)

(** Lines 41-45.  The value is not used afterwards; evaluating it can
    raise. *)
Definition sched_payment (loan_amount m_rate : Q) (term_years : Z) : outcome Q :=
  g <- pow (1 + m_rate) (term_years * 12) ;;
  g' <- pow (1 + m_rate) (term_years * 12) ;;
  div (loan_amount * (m_rate * g)) (g' - 1).

Definition amortization_shared (fuel : nat) (loan_amount annual_rate : Q)
    (term_years : Z) (monthly_contrib downpayments : list Q) (rounding : Z)
  : outcome (list Row * list YearRow) :=
  let n := length monthly_contrib in
  if negb (length downpayments =? n)%nat then Raises InvalidInput
  else
    let m_rate := annual_rate / 12 in
    _ <- sched_payment loan_amount m_rate term_years ;;
    st <- loop fuel m_rate monthly_contrib rounding
            (mkState loan_amount downpayments 0 []) ;;
    Returns (rows st, rollup (rows st)).

(** ** The page that calls the engine *)

(** What the handler of the button does with the engine's answer (lines
    120-132): a [ValueError] is shown with [st.error] and the script stops;
    any other exception is not caught. *)
Inductive click : Type :=
| Stopped (msg : string)
| Proceeds (schedule : list Row) (yearly : list YearRow)
| Propagates (e : exception)
| Pending.

(** Lines 121-132.  The two borrowers of the page make the two vectors; the
    rate is entered in percent. *)
Definition on_click (fuel : nat) (loan rate_pct : Q) (years : Z)
    (contrib_a contrib_b down_a down_b : Q) (rounding : Z) : click :=
  match amortization_shared fuel loan (rate_pct / 100) years
          [contrib_a; contrib_b] [down_a; down_b] rounding with
  | Returns out => Proceeds (fst out) (snd out)
  | Raises (ValueError msg) => Stopped msg
  | Raises e => Propagates e
  | Unfinished => Pending
  end.

(** Line 136, [schedule_df["Payment #"].iat[-1]]: the payment number of the
    last row; [None] is the [IndexError] of an empty column. *)
Definition months_to_payoff (schedule : list Row) : option Z :=
  match rev schedule with
  | [] => None
  | r :: _ => Some (pmt_no r)
  end.


(** ** Column labels *)










(** * The engine on binary64

    The same lines of [streamlit_app.py], on the doubles of the
    interpreter.  The arithmetic is that of the kernel's primitive floats
    (IEEE 754 binary64, round to nearest, ties to even), which is Python's;
    the built-ins [round], [sum] and [**] follow CPython. *)

Module Binary64.

Import Floats.
Local Open Scope float_scope.
#[local] Set Warnings "-inexact-float".

(** The literal [1e-6] of the loop guard. *)
Definition EPSILON : float := 1e-6.

(** ** Doubles and rationals *)

(** The value of a double; [None] for an infinity and for a nan. *)
Definition exact (x : float) : option Q :=
  match Prim2SF x with
  | S754_zero _ => Some 0%Q
  | S754_finite s m e => Some (inject_Z (cond_Zopp s (Zpos m)) * 2 ^ e)%Q
  | S754_infinity _ | S754_nan => None
  end.

(** The double nearest to a rational, ties to the even one, an infinity
    beyond the largest double.  The quotient is cut off at least two bits
    below the last place of the result; the lowest bit kept tells whether
    anything was cut. *)
Definition nearest (q : Q) : float :=
  let d := Zpos (Qden q) in
  let k := Z.max 0 (58 - Z.log2 (Z.abs (Qnum q)) + Z.log2 d) in
  let n := (Z.abs (Qnum q) * 2 ^ k)%Z in
  let sticky := if (n mod d =? 0)%Z then 0%Z else 1%Z in
  let m := (2 * (n / d) + sticky)%Z in
  SF2Prim (binary_normalize prec emax (if (Qnum q <? 0)%Z then (- m)%Z else m)
             (- k - 1) false).

(** The integer that a double with an integral value stands for. *)
Definition integer (w : float) : Z :=
  match exact w with
  | Some q => Qfloor q
  | None => 0%Z
  end.

(** ** Operations and built-ins *)

(** [x / y] *)
Definition div (x y : float) : outcome float :=
  if y =? 0 then Raises ZeroDivisionError else Returns (x / y).

(** [float(n)] for an [int], as the mixed operations [float ** int] and
    [float / int] convert it. *)
Definition float_of_int (n : Z) : outcome float :=
  let x := nearest (inject_Z n) in
  if is_infinity x then Raises OverflowError else Returns x.

(** The C library's [pow] for a positive finite base other than 1 and an
    integral exponent, taken as correctly rounded. *)
Definition libm_pow (v : float) (n : Z) : float :=
  match Prim2SF v with
  | S754_finite _ m e =>
      if (0 <=? n)%Z
      then SF2Prim (binary_normalize prec emax (Zpos m ^ n) (e * n) false)
      else nearest ((2 ^ (e * n))%Q / inject_Z (Zpos m ^ (- n)))
  | _ => nan
  end.

(** [v ** n] for a float [v] and an [int] [n] ([float_pow] of CPython). *)
Definition pow (v : float) (n : Z) : outcome float :=
  w <- float_of_int n ;;
  if w =? 0 then Returns 1
  else if is_nan v then Returns v
  else
    let odd := Z.odd (integer w) in
    if is_infinity v then
      Returns (if 0 <? w then (if odd then v else abs v)
               else (if odd && get_sign v then neg_zero else 0))
    else if v =? 0 then
      if w <? 0 then Raises ZeroDivisionError
      else Returns (if odd then v else 0)
    else
      let negate := (v <? 0) && odd in
      if abs v =? 1 then Returns (if negate then -1 else 1)
      else
        let ix := libm_pow (abs v) (integer w) in
        if is_infinity ix then Raises OverflowError
        else Returns (if negate then - ix else ix).

(** [round(x, ndigits)] ([float.__round__] of CPython): the decimal
    rounding of the value of [x], then the double nearest to it. *)
Definition round (x : float) (ndigits : Z) : outcome float :=
  match exact x with
  | None => Returns x
  | Some q =>
      if (323 <? ndigits)%Z then Returns x
      else if (ndigits <? -308)%Z then Returns (0 * x)
      else
        let r := nearest (Qabs (round q ndigits)) in
        if is_infinity r then Raises OverflowError
        else Returns (if get_sign x then - r else r)
  end.

(** The two algorithms of [sum] on floats: plain addition from the left
    (before Python 3.12) and Neumaier's compensated summation (from 3.12
    on). *)
Inductive summation : Type :=
| LeftToRight
| Compensated.

Definition neumaier (acc : float * float) (x : float) : float * float :=
  let f := fst acc in
  let c := snd acc in
  let t := f + x in
  (t, if abs x <=? abs f then c + ((f - t) + x) else c + ((x - t) + f)).

(** [sum(l)] *)
Definition sum (version : summation) (l : list float) : float :=
  match version with
  | LeftToRight => fold_left add l 0
  | Compensated =>
      match l with
      | [] => 0
      | x :: l' =>
          let acc := fold_left neumaier l' (0 + x, 0) in
          if negb (snd acc =? 0) && is_finite (snd acc)
          then fst acc + snd acc
          else fst acc
      end
  end.

(** ** Data *)

Record Row : Type := mkRow {
  pmt_no : Z;
  principal_paid : float;
  interest_paid : float;
  loan_balance : float;
  equity : list float
}.

Record YearRow : Type := mkYearRow {
  year : Z;
  year_equity : list float;
  year_loan_balance : float;
  total_equity : float;
  share : list float
}.

Record LoopState : Type := mkState {
  balance : float;
  cum_equity : list float;
  count : Z;
  rows : list Row
}.

Record Allocation : Type := mkAllocation {
  interest_due : float;
  contrib_sum : float;
  interest_parts : list float;
  principal_parts0 : list float;   (* before trimming *)
  principal_paid0 : float;         (* before trimming *)
  principal_parts : list float;    (* after trimming *)
  paid : float                     (* [principal_paid] after trimming *)
}.

(** ** The loop body *)

Definition zip_with (f : float -> float -> float) (a b : list float)
  : list float :=
  map (fun p => f (fst p) (snd p)) (combine a b).

(** [[c / contrib_sum * interest_due for c in monthly_contrib]] *)
Definition prorate (monthly_contrib : list float) (csum idue : float)
  : outcome (list float) :=
  mapM (fun c => q <- div c csum ;; Returns (q * idue)) monthly_contrib.

(** Lines 65-68. *)
Definition trim (bal : float) (parts : list float) (ppaid : float)
  : outcome (list float * float) :=
  if bal <? ppaid then
    scale <- div bal ppaid ;;
    Returns (map (fun p => p * scale) parts, bal)
  else Returns (parts, ppaid).

(** Lines 54-68. *)
Definition allocate (version : summation) (m_rate : float)
    (monthly_contrib : list float) (bal : float) : outcome Allocation :=
  let idue := bal * m_rate in
  let csum := sum version monthly_contrib in
  if csum <? idue then Raises InsufficientPayment
  else
    iparts <- prorate monthly_contrib csum idue ;;
    let pparts := zip_with sub monthly_contrib iparts in
    let ppaid := sum version pparts in
    tr <- trim bal pparts ppaid ;;
    Returns (mkAllocation idue csum iparts pparts ppaid (fst tr) (snd tr)).

(** Lines 53 and 70-77.  [round] can raise. *)
Definition commit (rounding : Z) (st : LoopState) (a : Allocation)
  : outcome LoopState :=
  let n := (count st + 1)%Z in
  let bal := balance st - paid a in
  let eq := zip_with add (cum_equity st) (principal_parts a) in
  pp <- round (paid a) rounding ;;
  ip <- round (interest_due a) rounding ;;
  lb <- round bal rounding ;;
  es <- mapM (fun e => round e rounding) eq ;;
  Returns (mkState bal eq n (rows st ++ [mkRow n pp ip lb es])).

Definition period (version : summation) (m_rate : float)
    (monthly_contrib : list float) (rounding : Z) (st : LoopState)
  : outcome LoopState :=
  a <- allocate version m_rate monthly_contrib (balance st) ;;
  commit rounding st a.

(** [while balance > 1e-6: ...] *)
Fixpoint loop (version : summation) (fuel : nat) (m_rate : float)
    (monthly_contrib : list float) (rounding : Z) (st : LoopState)
  : outcome LoopState :=
  if EPSILON <? balance st then
    match fuel with
    | O => Unfinished
    | S fuel' =>
        st' <- period version m_rate monthly_contrib rounding st ;;
        loop version fuel' m_rate monthly_contrib rounding st'
    end
  else Returns st.

(** ** The yearly roll-up *)

Definition year_of (r : Row) : Z := ((pmt_no r - 1) / 12 + 1)%Z.

(** [groupby("Year")]: the rows of each year, the years in ascending
    order. *)
Fixpoint put (y : Z) (r : Row) (groups : list (Z * list Row))
  : list (Z * list Row) :=
  match groups with
  | [] => [(y, [r])]
  | (y', rs) :: rest =>
      if (y <? y')%Z then (y, [r]) :: groups
      else if (y =? y')%Z then (y', rs ++ [r]) :: rest
      else (y', rs) :: put y r rest
  end.

Definition groupby (schedule : list Row) : list (Z * list Row) :=
  fold_left (fun groups r => put (year_of r) r groups) schedule [].

(** ["last"]: the last entry of a column that is not a nan, a nan when
    there is none. *)
Definition last_valid (column : list float) : float :=
  fold_left (fun found x => if is_nan x then found else x) column nan.

(** [sum(axis=1)] of pandas: the entries that are not nan, added from the
    left. *)
Definition nansum (l : list float) : float :=
  fold_left (fun s x => if is_nan x then s else s + x) l 0.

Definition year_row (n : nat) (g : Z * list Row) : YearRow :=
  let eqs :=
    map (fun i => last_valid (map (fun r => nth i (equity r) nan) (snd g)))
      (seq 0 n) in
  let total := nansum eqs in
  mkYearRow (fst g) eqs (last_valid (map loan_balance (snd g))) total
    (map (fun e => e / total) eqs).

Definition rollup (n : nat) (schedule : list Row) : list YearRow :=
  map (year_row n) (groupby schedule).

(** ** [amortization_shared] *)

(** Lines 41-45. *)
Definition sched_payment (loan_amount m_rate : float) (term_years : Z)
  : outcome float :=
  g <- pow (1 + m_rate) (term_years * 12) ;;
  g' <- pow (1 + m_rate) (term_years * 12) ;;
  div (loan_amount * (m_rate * g)) (g' - 1).

Definition amortization_shared (version : summation) (fuel : nat)
    (loan_amount annual_rate : float) (term_years : Z)
    (monthly_contrib downpayments : list float) (rounding : Z)
  : outcome (list Row * list YearRow) :=
  let n := length monthly_contrib in
  if negb (length downpayments =? n)%nat then Raises InvalidInput
  else
    let m_rate := annual_rate / 12 in
    _ <- sched_payment loan_amount m_rate term_years ;;
    st <- loop version fuel m_rate monthly_contrib rounding
            (mkState loan_amount downpayments 0 []) ;;
    Returns (rows st, rollup n (rows st)).

(** ** The page *)

Inductive click : Type :=
| Stopped (msg : string)
| Proceeds (schedule : list Row) (yearly : list YearRow)
| Propagates (e : exception)
| Pending.

(** Lines 121-132. *)
Definition on_click (version : summation) (fuel : nat) (loan rate_pct : float)
    (years : Z) (contrib_a contrib_b down_a down_b : float) (rounding : Z)
  : click :=
  match amortization_shared version fuel loan (rate_pct / 100) years
          [contrib_a; contrib_b] [down_a; down_b] rounding with
  | Returns out => Proceeds (fst out) (snd out)
  | Raises (ValueError msg) => Stopped msg
  | Raises e => Propagates e
  | Unfinished => Pending
  end.

(** ** Vocabulary *)

(** The loop started in [st0] gets to the test of its guard in [st]. *)
Inductive reachable (version : summation) (m_rate : float)
    (monthly_contrib : list float) (rounding : Z)
  : LoopState -> LoopState -> Prop :=
| reach_here (st : LoopState) :
    reachable version m_rate monthly_contrib rounding st st
| reach_step (st0 st1 st : LoopState) :
    (EPSILON <? balance st0) = true ->
    period version m_rate monthly_contrib rounding st0 = Returns st1 ->
    reachable version m_rate monthly_contrib rounding st1 st ->
    reachable version m_rate monthly_contrib rounding st0 st.

(** The values of a list of doubles, added up as rationals. *)
Fixpoint exact_sum (l : list float) : option Q :=
  match l with
  | [] => Some 0%Q
  | x :: l' =>
      match exact x, exact_sum l' with
      | Some q, Some s => Some (q + s)%Q
      | _, _ => None
      end
  end.

End Binary64.

(** * Vocabulary of the properties *)

(** [reachable m_rate monthly_contrib rounding st0 st]: the loop started in
    [st0] gets to the test of its guard in [st]. *)
Inductive reachable (m_rate : Q) (monthly_contrib : list Q) (rounding : Z)
  : LoopState -> LoopState -> Prop :=
| reach_here (st : LoopState) : reachable m_rate monthly_contrib rounding st st
| reach_step (st0 st1 st : LoopState) :
    EPSILON < balance st0 ->
    period m_rate monthly_contrib rounding st0 = Returns st1 ->
    reachable m_rate monthly_contrib rounding st1 st ->
    reachable m_rate monthly_contrib rounding st0 st.

Definition Qnat (k : nat) : Q := inject_Z (Z.of_nat k).




(** [x] lies within [t] of [y]. *)
Definition within (t x y : Q) : Prop := y - t <= x <= y + t.


Definition rounded (rounding : Z) (l : list Q) : list Q :=
  map (fun e => round e rounding) l.





(** The number of years that [n] monthly payments span: the ceiling of
    [n / 12]. *)
Definition years_of (n : nat) : nat := Z.to_nat ((Z.of_nat n + 11) / 12).

(** Payment numbers count the rows from 1. *)
Definition numbered (schedule : list Row) : Prop :=
  forall before r after,
    schedule = before ++ r :: after -> pmt_no r = (Z.of_nat (length before) + 1)%Z.

(** [r] is the last row of [schedule] that falls in year [y]. *)
Definition last_of_year (schedule : list Row) (y : Z) (r : Row) : Prop :=
  exists before after,
    schedule = before ++ r :: after
    /\ year_of r = y
    /\ Forall (fun r' => year_of r' <> y) after.

Definition counted (st : LoopState) : Prop :=
  count st = Z.of_nat (length (rows st)) /\ numbered (rows st).

Definition started (loan_amount : Q) (st : LoopState) : Prop :=
  balance st = loan_amount \/ rows st <> [].

(** Loop invariant: what is owed and what is owned add up to the loan and
    the down-payments, in the state exactly and in each row up to the
    rounding of its [N + 1] entries. *)
Definition balanced (monthly_contrib downpayments : list Q) (rounding : Z)
    (loan_amount : Q) (st : LoopState) : Prop :=
  length (cum_equity st) = length monthly_contrib
  /\ balance st + sum (cum_equity st) == loan_amount + sum downpayments
  /\ forall r,
      In r (rows st) ->
      length (equity r) = length monthly_contrib
      /\ within (Qnat (length monthly_contrib + 1) * half_unit rounding)
           (loan_balance r + sum (equity r)) (loan_amount + sum downpayments).





(** What a borrower owns when the balance is [bal]: the down-payment plus
    the borrower's share of the contributions times the principal repaid. *)
Definition equity_due (monthly_contrib downpayments : list Q)
    (loan_amount bal : Q) : list Q :=
  zip_with Qplus downpayments
    (map (fun c => c / sum monthly_contrib * (loan_amount - bal)) monthly_contrib).

(** Loop invariant: the equities are the ones due at the current balance,
    and each row holds the rounding of a balance and of the equities due at
    that balance. *)
Definition shared_out (monthly_contrib downpayments : list Q) (rounding : Z)
    (loan_amount : Q) (st : LoopState) : Prop :=
  Forall2 Qeq (cum_equity st)
    (equity_due monthly_contrib downpayments loan_amount (balance st))
  /\ forall r,
      In r (rows st) ->
      exists b,
        loan_balance r = round b rounding
        /\ equity r
           = rounded rounding (equity_due monthly_contrib downpayments loan_amount b).



(** ** Worked examples *)

(** A loan of 1000 at 12% a year, paid off in three months by two borrowers
    who contribute 300 and 200 a month, the first having put 100 down. *)
Definition demo_schedule : list Row :=
  Eval vm_compute in
    match amortization_shared 5 1000 (12 # 100) 1 [300; 200] [100; 0] 2 with
    | Returns out => fst out
    | _ => []
    end.

Definition demo_yearly : list YearRow :=
  Eval vm_compute in rollup demo_schedule.

Definition demo_row3 : Row := Eval vm_compute in nth 2 demo_schedule (mkRow 0 0 0 0 []).
Definition demo_year1 : YearRow :=
  Eval vm_compute in nth 0 demo_yearly (mkYearRow 0 [] 0 0 []).


Definition demo_trimmed : Allocation :=
  Eval vm_compute in
    match allocate (1 # 100) [100] 10 with
    | Returns a => a
    | _ => mkAllocation 0 0 [] [] 0 [] 0
    end.

(** Fourteen numbered rows, to exercise the roll-up over two years: row
    [k] has balance [100 - k] and the single equity [k]. *)
Definition demo_rows (n : nat) : list Row :=
  map (fun k => mkRow (Z.of_nat k) 0 0 (inject_Z (100 - Z.of_nat k))
                  [inject_Z (Z.of_nat k)])
      (seq 1 n).


(** ** Evaluating long schedules *)

(** The arithmetic of [Q] does not reduce fractions, and the loop squares
    the denominators at every period.  To evaluate a schedule of more than
    a few rows the examples run [loop_reduced], which puts the state in
    lowest terms after each period; [loop_reduced_finish] below shows that
    it builds the same rows as [loop]. *)
Definition reduce_state (st : LoopState) : LoopState :=
  mkState (Qred (balance st)) (map Qred (cum_equity st)) (count st) (rows st).

Fixpoint loop_reduced (fuel : nat) (m_rate : Q) (monthly_contrib : list Q)
    (rounding : Z) (st : LoopState) : outcome LoopState :=
  if Qltb EPSILON (balance st) then
    match fuel with
    | O => Unfinished
    | S fuel' =>
        st' <- period m_rate monthly_contrib rounding st ;;
        loop_reduced fuel' m_rate monthly_contrib rounding (reduce_state st')
    end
  else Returns st.

(** The last lines of [amortization_shared]: the tables of the final state. *)
Definition finish (o : outcome LoopState) : outcome (list Row * list YearRow) :=
  st <- o ;; Returns (rows st, rollup (rows st)).

(** Two states that hold the same numbers, whatever the fractions that
    write them, and the same rows. *)
Definition same_values (st st' : LoopState) : Prop :=
  balance st == balance st'
  /\ Forall2 Qeq (cum_equity st) (cum_equity st')
  /\ count st = count st'
  /\ rows st = rows st'.

(** Two outcomes that agree: the same exception, or results related by
    [R]. *)
Definition agree {A : Type} (R : A -> A -> Prop) (o o' : outcome A) : Prop :=
  match o, o' with
  | Returns a, Returns a' => R a a'
  | Raises e, Raises e' => e = e'
  | Unfinished, Unfinished => True
  | _, _ => False
  end.

(** A loan of 8 at 100% a year repaid by one borrower with 1 a month:
    fourteen payments, two years. *)
Definition long_schedule : list Row :=
  Eval vm_compute in
    match finish (loop_reduced 14 (1 / 12) [1] 0 (mkState 8 [0] 0 [])) with
    | Returns out => fst out
    | _ => []
    end.

Definition long_yearly : list YearRow :=
  Eval vm_compute in rollup long_schedule.

Definition long_row14 : Row :=
  Eval vm_compute in nth 13 long_schedule (mkRow 0 0 0 0 []).

(** * Properties *)

(** ** Comparisons and sums *)

Lemma Qltb_lt (x y : Q) : Qltb x y = true <-> x < y.
Proof.
  unfold Qltb. rewrite negb_true_iff, <- not_true_iff_false, Qle_bool_iff.
  split; [apply Qnot_le_lt | apply Qlt_not_le].
Qed.

Lemma Qltb_ge (x y : Q) : Qltb x y = false <-> y <= x.
Proof.
  unfold Qltb. rewrite negb_false_iff. apply Qle_bool_iff.
Qed.

Lemma Qeq_bool_false (x y : Q) : Qeq_bool x y = false <-> ~ x == y.
Proof.
  rewrite <- not_true_iff_false, Qeq_bool_iff. tauto.
Qed.

Lemma fold_left_Qplus_acc (l : list Q) (a : Q) :
  fold_left Qplus l a == a + fold_left Qplus l 0.
Proof.
  revert a. induction l as [|x l IH]; intros a; simpl.
  - ring.
  - rewrite (IH (a + x)), (IH (0 + x)). ring.
Qed.

Lemma sum_nil : sum [] = 0.
Proof. reflexivity. Qed.

Lemma sum_cons (x : Q) (l : list Q) : sum (x :: l) == x + sum l.
Proof.
  unfold sum. simpl. rewrite fold_left_Qplus_acc. ring.
Qed.


Lemma sum_map_scale (k : Q) (l : list Q) :
  sum (map (fun p => p * k) l) == sum l * k.
Proof.
  induction l as [|x l IH]; simpl.
  - rewrite sum_nil. ring.
  - rewrite !sum_cons, IH. ring.
Qed.

Lemma sum_map_div (k : Q) (l : list Q) :
  sum (map (fun p => p / k) l) == sum l / k.
Proof.
  induction l as [|x l IH]; simpl.
  - rewrite sum_nil. unfold Qdiv. ring.
  - rewrite !sum_cons, IH. unfold Qdiv. ring.
Qed.



Lemma zip_with_length (f : Q -> Q -> Q) (a b : list Q) :
  length a = length b -> length (zip_with f a b) = length a.
Proof.
  intros H. unfold zip_with. rewrite length_map, length_combine, <- H.
  apply Nat.min_id.
Qed.

Lemma sum_zip_plus (a b : list Q) :
  length a = length b -> sum (zip_with Qplus a b) == sum a + sum b.
Proof.
  revert b. induction a as [|x a IH]; intros [|y b] H; try discriminate.
  - unfold zip_with; simpl. rewrite sum_nil. ring.
  - unfold zip_with in *. simpl. rewrite !sum_cons, IH by (simpl in H; lia). ring.
Qed.

Lemma sum_zip_minus (a b : list Q) :
  length a = length b -> sum (zip_with Qminus a b) == sum a - sum b.
Proof.
  revert b. induction a as [|x a IH]; intros [|y b] H; try discriminate.
  - unfold zip_with; simpl. rewrite sum_nil. ring.
  - unfold zip_with in *. simpl. rewrite !sum_cons, IH by (simpl in H; lia). ring.
Qed.

(** ** Amounts *)





(** ** Rounding *)


Lemma half_even_bounds (y : Q) :
  inject_Z (half_even y) - (1 # 2) <= y <= inject_Z (half_even y) + (1 # 2).
Proof.
  unfold half_even.
  pose proof (Qfloor_le y) as Hlo. pose proof (Qlt_floor y) as Hhi.
  rewrite inject_Z_plus in Hhi. change (inject_Z 1) with 1 in Hhi.
  destruct (Qcompare (y - inject_Z (Qfloor y)) (1 # 2)) eqn:E.
  - apply Qeq_alt in E. destruct (Z.even (Qfloor y)).
    + lra.
    + rewrite inject_Z_plus. change (inject_Z 1) with 1. lra.
  - apply Qlt_alt in E. lra.
  - apply Qgt_alt in E. rewrite inject_Z_plus. change (inject_Z 1) with 1. lra.
Qed.




Lemma pow10_pos (d : Z) : 0 < 10 ^ d.
Proof. apply Qpower_0_lt. reflexivity. Qed.


Lemma round_error (x : Q) (d : Z) :
  x - half_unit d <= round x d <= x + half_unit d.
Proof.
  unfold round, half_unit. pose proof (pow10_pos d) as Hs.
  set (s := 10 ^ d) in *. pose proof (half_even_bounds (x * s)) as [Hlo Hhi].
  set (z := inject_Z (half_even (x * s))) in *.
  assert (Hx : x == (x * s) / s) by (field; lra).
  assert (Hd : z / s - (1 # 2) / s == (z - (1 # 2)) / s) by (field; lra).
  assert (Hd' : z / s + (1 # 2) / s == (z + (1 # 2)) / s) by (field; lra).
  split.
  - apply Qle_minus_iff. setoid_replace (z / s + - (x - (1 # 2) / s))
      with ((z + (1 # 2) - x * s) / s) by (field; lra).
    apply Qle_shift_div_l; lra.
  - apply Qle_minus_iff. setoid_replace (x + (1 # 2) / s + - (z / s))
      with ((x * s - (z - (1 # 2))) / s) by (field; lra).
    apply Qle_shift_div_l; lra.
Qed.




(** ** One period *)

Lemma div_returns (x y q : Q) : div x y = Returns q -> ~ y == 0 /\ q = x / y.
Proof.
  unfold div. destruct (Qeq_bool y 0) eqn:E; [discriminate|].
  intros H. inversion H. split; [apply Qeq_bool_false, E | reflexivity].
Qed.

Lemma div_raises (x y : Q) (e : exception) :
  div x y = Raises e -> e = ZeroDivisionError.
Proof.
  unfold div. destruct (Qeq_bool y 0); intros H; inversion H. reflexivity.
Qed.

Lemma div_finished (x y : Q) : div x y <> Unfinished.
Proof. unfold div. destruct (Qeq_bool y 0); discriminate. Qed.

Lemma zip_with_map_r (f : Q -> Q -> Q) (g : Q -> Q) (l : list Q) :
  zip_with f l (map g l) = map (fun c => f c (g c)) l.
Proof.
  unfold zip_with. induction l as [|c l IH]; simpl; [reflexivity|].
  now rewrite IH.
Qed.

Section Period.

Variable m_rate : Q.
Variable monthly_contrib : list Q.

Lemma prorate_nonzero (csum idue : Q) :
  Qeq_bool csum 0 = false ->
  prorate monthly_contrib csum idue
  = Returns (map (fun c => c / csum * idue) monthly_contrib).
Proof.
  intros E. unfold prorate.
  induction monthly_contrib as [|c mc IH]; simpl; [reflexivity|].
  unfold div at 1. rewrite E. simpl. rewrite IH. reflexivity.
Qed.

Lemma prorate_zero (csum idue : Q) :
  Qeq_bool csum 0 = true ->
  prorate monthly_contrib csum idue
  = match monthly_contrib with
    | [] => Returns []
    | _ :: _ => Raises ZeroDivisionError
    end.
Proof.
  intros E. unfold prorate.
  destruct monthly_contrib as [|c mc]; simpl; [reflexivity|].
  unfold div at 1. rewrite E. reflexivity.
Qed.

Lemma prorate_returns (csum idue : Q) (ip : list Q) :
  prorate monthly_contrib csum idue = Returns ip ->
  ip = map (fun c => c / csum * idue) monthly_contrib
  /\ (monthly_contrib <> [] -> ~ csum == 0).
Proof.
  destruct (Qeq_bool csum 0) eqn:E.
  - rewrite (prorate_zero _ _ E).
    destruct monthly_contrib; [|discriminate].
    intros H; inversion H. split; [reflexivity | congruence].
  - rewrite (prorate_nonzero _ _ E). intros H; inversion H.
    split; [reflexivity|]. intros _. apply Qeq_bool_false, E.
Qed.

Lemma prorate_raises (csum idue : Q) (e : exception) :
  prorate monthly_contrib csum idue = Raises e -> e = ZeroDivisionError.
Proof.
  destruct (Qeq_bool csum 0) eqn:E.
  - rewrite (prorate_zero _ _ E).
    destruct monthly_contrib; [discriminate|]. now inversion 1.
  - rewrite (prorate_nonzero _ _ E). discriminate.
Qed.

Lemma prorate_finished (csum idue : Q) :
  prorate monthly_contrib csum idue <> Unfinished.
Proof.
  destruct (Qeq_bool csum 0) eqn:E.
  - rewrite (prorate_zero _ _ E). destruct monthly_contrib; discriminate.
  - rewrite (prorate_nonzero _ _ E). discriminate.
Qed.

Lemma trim_returns (bal ppaid : Q) (parts parts' : list Q) (ppaid' : Q) :
  trim bal parts ppaid = Returns (parts', ppaid') ->
  (ppaid <= bal /\ parts' = parts /\ ppaid' = ppaid)
  \/ (bal < ppaid /\ ~ ppaid == 0
      /\ parts' = map (fun p => p * (bal / ppaid)) parts /\ ppaid' = bal).
Proof.
  unfold trim. destruct (Qltb bal ppaid) eqn:E.
  - apply Qltb_lt in E. destruct (div bal ppaid) as [q| |] eqn:D; try discriminate.
    apply div_returns in D as [Hnz ->]. simpl. intros H; inversion H; subst.
    right. repeat split; assumption.
  - apply Qltb_ge in E. intros H; inversion H; subst. left. repeat split; assumption.
Qed.

Lemma trim_raises (bal ppaid : Q) (parts : list Q) (e : exception) :
  trim bal parts ppaid = Raises e -> e = ZeroDivisionError.
Proof.
  unfold trim. destruct (Qltb bal ppaid); [|discriminate].
  destruct (div bal ppaid) as [q| |] eqn:D; simpl; try discriminate.
  intros H; inversion H; subst. now apply div_raises in D.
Qed.

Lemma trim_finished (bal ppaid : Q) (parts : list Q) :
  trim bal parts ppaid <> Unfinished.
Proof.
  unfold trim. destruct (Qltb bal ppaid); [|discriminate].
  pose proof (div_finished bal ppaid).
  destruct (div bal ppaid); simpl; congruence.
Qed.

(** What a successful [allocate] computed, line by line. *)
Lemma allocate_returns (bal : Q) (a : Allocation) :
  allocate m_rate monthly_contrib bal = Returns a ->
  interest_due a = bal * m_rate
  /\ contrib_sum a = sum monthly_contrib
  /\ interest_due a <= contrib_sum a
  /\ prorate monthly_contrib (contrib_sum a) (interest_due a)
     = Returns (interest_parts a)
  /\ principal_parts0 a = zip_with Qminus monthly_contrib (interest_parts a)
  /\ principal_paid0 a = sum (principal_parts0 a)
  /\ trim bal (principal_parts0 a) (principal_paid0 a)
     = Returns (principal_parts a, paid a).
Proof.
  unfold allocate.
  destruct (Qltb (sum monthly_contrib) (bal * m_rate)) eqn:E; [discriminate|].
  apply Qltb_ge in E.
  destruct (prorate _ _ _) as [ip| |] eqn:P; try discriminate. simpl.
  destruct (trim _ _ _) as [[parts' ppaid']| |] eqn:T; try discriminate. simpl.
  intros H; inversion H; subst; simpl. repeat split; assumption.
Qed.

Lemma allocate_raises (bal : Q) (e : exception) :
  allocate m_rate monthly_contrib bal = Raises e ->
  (e = InsufficientPayment /\ sum monthly_contrib < bal * m_rate)
  \/ (e = ZeroDivisionError /\ bal * m_rate <= sum monthly_contrib).
Proof.
  unfold allocate.
  destruct (Qltb (sum monthly_contrib) (bal * m_rate)) eqn:E.
  - apply Qltb_lt in E. intros H; inversion H. left. split; [reflexivity | exact E].
  - apply Qltb_ge in E. intros H. right. split; [|exact E].
    destruct (prorate _ _ _) as [ip| |] eqn:P; simpl in H.
    + destruct (trim _ _ _) as [tr| |] eqn:T; simpl in H; try discriminate.
      inversion H; subst. now apply trim_raises in T.
    + inversion H; subst. now apply prorate_raises in P.
    + discriminate.
Qed.

Lemma allocate_finished (bal : Q) :
  allocate m_rate monthly_contrib bal <> Unfinished.
Proof.
  unfold allocate.
  destruct (Qltb (sum monthly_contrib) (bal * m_rate)); [discriminate|].
  pose proof (prorate_finished (sum monthly_contrib) (bal * m_rate)) as P.
  destruct (prorate _ _ _) as [ip| |]; simpl; try congruence.
  pose proof (trim_finished bal
                (sum (zip_with Qminus monthly_contrib ip))
                (zip_with Qminus monthly_contrib ip)) as T.
  destruct (trim _ _ _); simpl; congruence.
Qed.

Section Returned.

Variable bal : Q.
Variable a : Allocation.
Hypothesis Ha : allocate m_rate monthly_contrib bal = Returns a.

Lemma interest_parts_eq :
  interest_parts a
  = map (fun c => c / contrib_sum a * interest_due a) monthly_contrib.
Proof.
  destruct (allocate_returns _ _ Ha) as (_ & _ & _ & P & _).
  now apply prorate_returns in P.
Qed.

Lemma contrib_sum_nonzero : monthly_contrib <> [] -> ~ contrib_sum a == 0.
Proof.
  destruct (allocate_returns _ _ Ha) as (_ & _ & _ & P & _).
  apply prorate_returns in P. tauto.
Qed.

Lemma interest_parts_sum :
  monthly_contrib <> [] -> sum (interest_parts a) == interest_due a.
Proof.
  intros Hne. pose proof (contrib_sum_nonzero Hne) as Hnz.
  destruct (allocate_returns _ _ Ha) as (_ & Hs & _).
  rewrite interest_parts_eq.
  rewrite <- (map_map (fun c => c / contrib_sum a) (fun q => q * interest_due a)).
  rewrite sum_map_scale, sum_map_div, <- Hs. field. exact Hnz.
Qed.

Lemma principal_parts0_eq :
  principal_parts0 a
  = map (fun c => c - c / contrib_sum a * interest_due a) monthly_contrib.
Proof.
  destruct (allocate_returns _ _ Ha) as (_ & _ & _ & _ & -> & _).
  rewrite interest_parts_eq. apply zip_with_map_r.
Qed.

Lemma principal_paid0_nonneg : 0 <= principal_paid0 a.
Proof.
  destruct (allocate_returns _ _ Ha) as (_ & Hs & Hle & _ & Hp & -> & _).
  assert (Hcases : monthly_contrib = [] \/ monthly_contrib <> [])
    by (destruct monthly_contrib; [left | right]; congruence).
  destruct Hcases as [Hnil|Hne].
  - rewrite Hp, Hnil. unfold zip_with. simpl. rewrite sum_nil. lra.
  - rewrite Hp, sum_zip_minus.
    + rewrite (interest_parts_sum Hne), <- Hs. lra.
    + rewrite interest_parts_eq. now rewrite length_map.
Qed.

Lemma principal_parts_length :
  length (principal_parts a) = length monthly_contrib.
Proof.
  destruct (allocate_returns _ _ Ha) as (_ & _ & _ & _ & _ & _ & T).
  assert (H0 : length (principal_parts0 a) = length monthly_contrib)
    by (rewrite principal_parts0_eq; apply length_map).
  apply trim_returns in T as [(_ & -> & _)|(_ & _ & -> & _)];
    [|rewrite length_map]; exact H0.
Qed.

(** [principal_paid] is the sum of the parts, trimmed or not. *)
Lemma principal_parts_sum : sum (principal_parts a) == paid a.
Proof.
  destruct (allocate_returns _ _ Ha) as (_ & _ & _ & _ & _ & Hp & T).
  apply trim_returns in T as [(_ & -> & ->)|(_ & Hnz & -> & ->)].
  - rewrite Hp. reflexivity.
  - rewrite sum_map_scale, <- Hp. field. exact Hnz.
Qed.


Lemma paid_nonneg : 0 <= bal -> 0 <= paid a.
Proof.
  intros Hb. pose proof principal_paid0_nonneg.
  destruct (allocate_returns _ _ Ha) as (_ & _ & _ & _ & _ & _ & T).
  apply trim_returns in T as [(_ & _ & ->)|(_ & _ & _ & ->)]; lra.
Qed.



End Returned.

End Period.

(** ** Lists built by appending *)

Lemma snoc_split1 {A : Type} (l l1 l2 : list A) (x r : A) :
  l ++ [x] = l1 ++ r :: l2 ->
  (l2 = [] /\ r = x /\ l = l1)
  \/ (exists l2', l2 = l2' ++ [x] /\ l = l1 ++ r :: l2').
Proof.
  destruct (exists_last (l := r :: l2)) as (m & z & Hm); [discriminate|].
  intros H. rewrite Hm, app_assoc in H. apply app_inj_tail in H as [Hl Hx]. subst z.
  destruct l2 as [|y l2].
  - left. change [r] with ([] ++ [r]) in Hm.
    apply app_inj_tail in Hm as [<- ->]. rewrite app_nil_r in Hl. auto.
  - right. destruct (exists_last (l := y :: l2)) as (m' & z & Hm'); [discriminate|].
    rewrite Hm' in Hm. change (r :: m' ++ [z]) with ((r :: m') ++ [z]) in Hm.
    apply app_inj_tail in Hm as [<- ->]. exists m'. split; [exact Hm' | exact Hl].
Qed.


(** ** The loop *)

Section Loop.

Variable m_rate : Q.
Variable monthly_contrib : list Q.
Variable rounding : Z.

Local Abbreviation period' := (period m_rate monthly_contrib rounding).
Local Abbreviation loop' := (fun fuel => loop fuel m_rate monthly_contrib rounding).
Local Abbreviation reachable' := (reachable m_rate monthly_contrib rounding).

Lemma period_returns (st st' : LoopState) :
  period' st = Returns st' ->
  exists a, allocate m_rate monthly_contrib (balance st) = Returns a
            /\ st' = commit rounding st a.
Proof.
  unfold period. destruct (allocate _ _ _) as [a| |]; try discriminate.
  simpl. intros H; inversion H. eauto.
Qed.

Lemma period_raises (st : LoopState) (e : exception) :
  period' st = Raises e ->
  allocate m_rate monthly_contrib (balance st) = Raises e.
Proof.
  unfold period. destruct (allocate _ _ _) as [a| |]; try discriminate.
  simpl. intros H; inversion H. reflexivity.
Qed.

Lemma period_finished (st : LoopState) : period' st <> Unfinished.
Proof.
  unfold period. pose proof (allocate_finished m_rate monthly_contrib (balance st)).
  destruct (allocate _ _ _); simpl; congruence.
Qed.

Lemma loop_returns (fuel : nat) (st0 st : LoopState) :
  loop' fuel st0 = Returns st -> reachable' st0 st /\ balance st <= EPSILON.
Proof.
  revert st0. induction fuel as [|fuel IH]; intros st0; simpl.
  - destruct (Qltb EPSILON (balance st0)) eqn:G; [discriminate|].
    intros H; inversion H; subst. apply Qltb_ge in G. split; [constructor | exact G].
  - destruct (Qltb EPSILON (balance st0)) eqn:G.
    + apply Qltb_lt in G. destruct (period' st0) as [st1| |] eqn:P; try discriminate.
      simpl. intros H. destruct (IH _ H) as [Hr Hb].
      split; [eapply reach_step; eassumption | exact Hb].
    + intros H; inversion H; subst. apply Qltb_ge in G. split; [constructor | exact G].
Qed.

(** A failing period fails the whole loop: the rows built so far are lost. *)
Lemma loop_fails (st0 st : LoopState) (e : exception) :
  reachable' st0 st -> EPSILON < balance st -> period' st = Raises e ->
  (forall fuel, loop' fuel st0 = Raises e \/ loop' fuel st0 = Unfinished)
  /\ (exists fuel, loop' fuel st0 = Raises e).
Proof.
  intros Hr Hg He. induction Hr as [st|st0 st1 st G P Hr IH].
  - apply Qltb_lt in Hg. split.
    + intros [|fuel]; simpl; rewrite Hg; [now right|]. rewrite He. now left.
    + exists 1%nat. simpl. rewrite Hg, He. reflexivity.
  - destruct (IH Hg He) as [IHall [fuel IHex]]. apply Qltb_lt in G. split.
    + intros [|fuel']; simpl; rewrite G; [now right|]. rewrite P. simpl. apply IHall.
    + exists (S fuel). simpl. rewrite G, P. simpl. exact IHex.
Qed.

(** The rule for loop invariants. *)
Lemma reachable_invariant (P : LoopState -> Prop) :
  (forall st a,
      P st -> EPSILON < balance st ->
      allocate m_rate monthly_contrib (balance st) = Returns a ->
      P (commit rounding st a)) ->
  forall st0 st, reachable' st0 st -> P st0 -> P st.
Proof.
  intros Hstep st0 st Hr. induction Hr as [st|st0 st1 st G Hp Hr IH]; [auto|].
  intros H0. apply IH. apply period_returns in Hp as (a & Ha & ->).
  now apply Hstep.
Qed.

Lemma rows_commit (st : LoopState) (a : Allocation) :
  rows (commit rounding st a)
  = rows st ++
      [mkRow (count st + 1) (round (paid a) rounding)
         (round (interest_due a) rounding)
         (round (balance st - paid a) rounding)
         (map (fun e => round e rounding)
            (zip_with Qplus (cum_equity st) (principal_parts a)))].
Proof. reflexivity. Qed.

End Loop.

(** ** The whole call *)

Lemma amortization_shared_returns (fuel : nat) (loan_amount annual_rate : Q)
    (term_years : Z) (monthly_contrib downpayments : list Q) (rounding : Z)
    (schedule : list Row) (yearly : list YearRow) :
  amortization_shared fuel loan_amount annual_rate term_years
    monthly_contrib downpayments rounding = Returns (schedule, yearly) ->
  length downpayments = length monthly_contrib
  /\ yearly = rollup schedule
  /\ exists st,
      reachable (annual_rate / 12) monthly_contrib rounding
        (mkState loan_amount downpayments 0 []) st
      /\ balance st <= EPSILON
      /\ schedule = rows st.
Proof.
  unfold amortization_shared.
  destruct (length downpayments =? length monthly_contrib)%nat eqn:L;
    [|discriminate]. apply Nat.eqb_eq in L. simpl.
  destruct (sched_payment _ _ _) as [sp| |]; try discriminate. simpl.
  destruct (loop _ _ _ _ _) as [st| |] eqn:R; try discriminate. simpl.
  intros H; inversion H; subst. apply loop_returns in R as [Hr Hb].
  split; [exact L|]. split; [reflexivity|]. exists st. auto.
Qed.

(** ** Conservation of equity *)

Lemma Qnat_S (k : nat) : Qnat (S k) == Qnat k + 1.
Proof.
  unfold Qnat. rewrite Nat2Z.inj_succ, <- Z.add_1_r, inject_Z_plus. reflexivity.
Qed.

Lemma Qnat_nonneg (k : nat) : 0 <= Qnat k.
Proof.
  unfold Qnat. change 0 with (inject_Z 0). rewrite <- Zle_Qle. lia.
Qed.


Lemma sum_round_within (l : list Q) (d : Z) :
  within (Qnat (length l) * half_unit d) (sum (map (fun e => round e d) l)) (sum l).
Proof.
  unfold within. induction l as [|x l IH]; simpl length.
  - simpl. rewrite sum_nil. change (Qnat 0) with 0. lra.
  - simpl map. rewrite !sum_cons, Qnat_S. pose proof (round_error x d). lra.
Qed.

Section Conservation.

Variable m_rate : Q.
Variable monthly_contrib downpayments : list Q.
Variable rounding : Z.



End Conservation.


(** ** Payoff *)

Section Payoff.

Variable m_rate : Q.
Variable monthly_contrib : list Q.
Variable rounding : Z.



End Payoff.


(** ** Growth of each borrower's equity *)







Section Equity.

Variable m_rate : Q.
Variable monthly_contrib downpayments : list Q.
Variable rounding : Z.

Hypothesis contrib_nonneg : Forall (fun c => 0 <= c) monthly_contrib.





End Equity.


(** ** The yearly roll-up *)

Lemma put_last_In (y : Z) (r : Row) (groups : list (Z * Row)) (p : Z * Row) :
  In p (put_last y r groups) -> p = (y, r) \/ In p groups.
Proof.
  induction groups as [|[y' r'] rest IH]; simpl.
  - intros [<-|[]]. now left.
  - destruct (y <? y')%Z; [|destruct (y =? y')%Z]; simpl.
    + intros [<-|H]; [now left | now right].
    + intros [<-|H]; [now left | right; now right].
    + intros [<-|H]; [right; now left|].
      destruct (IH H) as [->|H']; [now left | right; now right].
Qed.

Lemma put_last_above (y : Z) (r : Row) (groups : list (Z * Row)) :
  (forall p, In p groups -> (fst p < y)%Z) ->
  put_last y r groups = groups ++ [(y, r)].
Proof.
  induction groups as [|[y' r'] rest IH]; intros H; simpl; [reflexivity|].
  assert (Hy : (y' < y)%Z) by (apply (H (y', r')); now left).
  destruct (Z.ltb_spec y y'); [lia|]. destruct (Z.eqb_spec y y'); [lia|].
  rewrite IH; [reflexivity|]. intros p Hp. apply H. now right.
Qed.

Lemma put_last_replace (y : Z) (r r0 : Row) (groups : list (Z * Row)) :
  (forall p, In p groups -> (fst p < y)%Z) ->
  put_last y r (groups ++ [(y, r0)]) = groups ++ [(y, r)].
Proof.
  induction groups as [|[y' r'] rest IH]; intros H; simpl.
  - rewrite Z.ltb_irrefl, Z.eqb_refl. reflexivity.
  - assert (Hy : (y' < y)%Z) by (apply (H (y', r')); now left).
    destruct (Z.ltb_spec y y'); [lia|]. destruct (Z.eqb_spec y y'); [lia|].
    rewrite IH; [reflexivity|]. intros p Hp. apply H. now right.
Qed.

Lemma groupby_last_snoc (schedule : list Row) (r : Row) :
  groupby_last (schedule ++ [r])
  = put_last (year_of r) r (groupby_last schedule).
Proof. unfold groupby_last. now rewrite fold_left_app. Qed.

Lemma groupby_last_In (schedule : list Row) (p : Z * Row) :
  In p (groupby_last schedule) -> In (snd p) schedule /\ fst p = year_of (snd p).
Proof.
  induction schedule as [|r schedule IH] using rev_ind.
  - intros [].
  - rewrite groupby_last_snoc. intros H. apply put_last_In in H as [->|H].
    + simpl. split; [apply in_or_app; right; now left | reflexivity].
    + destruct (IH H) as [Hin Hy]. split; [apply in_or_app; now left | exact Hy].
Qed.

Lemma years_of_step (n : nat) :
  let y := ((Z.of_nat n + 1 - 1) / 12 + 1)%Z in
  (y = (Z.of_nat (years_of n) + 1)%Z /\ years_of (S n) = S (years_of n))
  \/ (y = Z.of_nat (years_of n) /\ years_of (S n) = years_of n
      /\ (1 <= years_of n)%nat).
Proof.
  unfold years_of. cbv zeta.
  destruct (Z.eq_dec (Z.of_nat n mod 12) 0) as [E|E]; [left | right];
    rewrite ?Nat2Z.inj_succ; zify; Z.to_euclidean_division_equations; lia.
Qed.

Lemma numbered_snoc (schedule : list Row) (r : Row) :
  numbered (schedule ++ [r]) ->
  numbered schedule /\ pmt_no r = (Z.of_nat (length schedule) + 1)%Z.
Proof.
  intros H. split.
  - intros before r' after ->. apply (H before r' (after ++ [r])).
    now rewrite <- app_assoc.
  - apply (H schedule r []). reflexivity.
Qed.

Lemma keys_bound (groups : list (Z * Row)) (m : nat) (p : Z * Row) :
  map fst groups = map Z.of_nat (seq 1 m) ->
  In p groups -> (1 <= fst p <= Z.of_nat m)%Z.
Proof.
  intros Hk Hin. apply (in_map fst) in Hin. rewrite Hk in Hin.
  apply in_map_iff in Hin as (k & <- & Hk'). apply in_seq in Hk'. lia.
Qed.

Lemma groupby_last_numbered (schedule : list Row) :
  numbered schedule ->
  map fst (groupby_last schedule)
  = map Z.of_nat (seq 1 (years_of (length schedule)))
  /\ forall y r, In (y, r) (groupby_last schedule) -> last_of_year schedule y r.
Proof.
  induction schedule as [|x schedule IH] using rev_ind; intros Hn.
  - split; [reflexivity | intros y r []].
  - apply numbered_snoc in Hn as [Hn Hx]. destruct (IH Hn) as [Hkeys Hlast].
    clear IH. rewrite groupby_last_snoc, length_app. simpl length.
    rewrite Nat.add_1_r.
    assert (Hyear : year_of x = ((Z.of_nat (length schedule) + 1 - 1) / 12 + 1)%Z)
      by (unfold year_of; now rewrite Hx).
    set (G := groupby_last schedule) in *.
    assert (Hold : forall y r, In (y, r) G -> (y < year_of x)%Z ->
                               last_of_year (schedule ++ [x]) y r).
    { intros y r Hin Hlt. destruct (Hlast _ _ Hin) as (before & after & -> & Hy & Ha).
      exists before, (after ++ [x]). split; [now rewrite <- app_assoc|].
      split; [exact Hy|]. apply Forall_app. split; [exact Ha|].
      constructor; [lia | constructor]. }
    assert (Hnew : last_of_year (schedule ++ [x]) (year_of x) x).
    { exists schedule, []. repeat split. constructor. }
    destruct (years_of_step (length schedule)) as [[Hy Hs]|(Hy & Hs & Hpos)];
      cbv zeta in Hy; rewrite <- Hyear in Hy; rewrite Hs.
    + assert (Habove : forall p, In p G -> (fst p < year_of x)%Z).
      { intros p Hp. pose proof (keys_bound _ _ _ Hkeys Hp). lia. }
      rewrite (put_last_above _ _ _ Habove). split.
      * rewrite map_app, Hkeys, seq_S, map_app. simpl. f_equal. f_equal. lia.
      * intros y r Hin. apply in_app_or in Hin as [Hin|[Heq|[]]].
        -- apply Hold; [exact Hin|]. exact (Habove _ Hin).
        -- inversion Heq; subst. exact Hnew.
    + destruct (exists_last (l := G)) as (G0 & [k r0] & HG).
      { intros E. rewrite E in Hkeys. simpl in Hkeys.
        destruct (years_of (length schedule)); [lia | discriminate]. }
      destruct (years_of (length schedule)) as [|m] eqn:Em; [lia|].
      rewrite HG, map_app, seq_S, map_app in Hkeys. simpl in Hkeys.
      apply app_inj_tail in Hkeys as [Hk0 Hk]. simpl in Hk.
      assert (Hkx : k = year_of x) by lia. rewrite Hkx in HG. clear Hk Hkx k.
      assert (Hbelow : forall p, In p G0 -> (fst p < year_of x)%Z).
      { intros p Hp. pose proof (keys_bound _ _ _ Hk0 Hp). lia. }
      rewrite HG, (put_last_replace _ _ _ _ Hbelow). split.
      * rewrite map_app, Hk0, seq_S, map_app. simpl. f_equal. f_equal. lia.
      * intros y r Hin. apply in_app_or in Hin as [Hin|[Heq|[]]].
        -- apply Hold; [|exact (Hbelow _ Hin)].
           rewrite HG. apply in_or_app. now left.
        -- inversion Heq; subst. exact Hnew.
Qed.

Section Counting.

Variable m_rate : Q.
Variable monthly_contrib : list Q.
Variable rounding : Z.

Lemma counted_step (st : LoopState) (a : Allocation) :
  counted st -> EPSILON < balance st ->
  allocate m_rate monthly_contrib (balance st) = Returns a ->
  counted (commit rounding st a).
Proof.
  intros [Hc Hn] _ _. split.
  - rewrite rows_commit, length_app. simpl. lia.
  - intros before r after Hs. rewrite rows_commit in Hs.
    apply snoc_split1 in Hs as [(_ & -> & Hb)|(after' & _ & Hb)].
    + simpl. rewrite <- Hb. lia.
    + eapply Hn. exact Hb.
Qed.

Lemma counted_start (loan_amount : Q) (downpayments : list Q) :
  counted (mkState loan_amount downpayments 0 []).
Proof.
  split; [reflexivity|]. intros before r after H. destruct before; discriminate.
Qed.

Lemma started_step (loan_amount : Q) (st : LoopState) (a : Allocation) :
  started loan_amount st -> EPSILON < balance st ->
  allocate m_rate monthly_contrib (balance st) = Returns a ->
  started loan_amount (commit rounding st a).
Proof.
  intros _ _ _. right. rewrite rows_commit. intros E.
  apply app_eq_nil in E as [_ E]. discriminate.
Qed.

End Counting.

Lemma years_of_ceiling (n : nat) :
  (Z.of_nat n <= 12 * Z.of_nat (years_of n) < Z.of_nat n + 12)%Z.
Proof.
  unfold years_of. zify. Z.to_euclidean_division_equations. lia.
Qed.

Lemma rollup_years (schedule : list Row) :
  map year (rollup schedule) = map fst (groupby_last schedule).
Proof. unfold rollup. rewrite map_map. reflexivity. Qed.

(** C9 (as amended).  Yearly roll-up.  A row belongs to year
    [(pmt_no - 1) div 12 + 1]; the rows of a returned schedule are numbered
    1, 2, ...; the roll-up has one row per year 1, 2, ..., in ascending
    order, their number being the ceiling of a twelfth of the number of
    payments; and each yearly row takes its balance and equities from the
    last schedule row of its year.  The schedule has at least one row when
    the loan amount exceeds the tolerance [1e-6] of the loop guard. *)
Theorem yearly_rollup_semantics (fuel : nat) (loan_amount annual_rate : Q)
    (term_years : Z) (monthly_contrib downpayments : list Q) (rounding : Z)
    (schedule : list Row) (yearly : list YearRow) :
  amortization_shared fuel loan_amount annual_rate term_years
    monthly_contrib downpayments rounding = Returns (schedule, yearly) ->
  (EPSILON < loan_amount -> schedule <> [])
  /\ numbered schedule
  /\ map year yearly = map Z.of_nat (seq 1 (length yearly))
  /\ (Z.of_nat (length schedule) <= 12 * Z.of_nat (length yearly)
      < Z.of_nat (length schedule) + 12)%Z
  /\ forall yr,
      In yr yearly ->
      exists r,
        last_of_year schedule (year yr) r
        /\ year_of r = ((pmt_no r - 1) / 12 + 1)%Z
        /\ year_loan_balance yr = loan_balance r
        /\ year_equity yr = equity r.
Proof.
  intros H.
  apply amortization_shared_returns in H as (_ & -> & st & Hr & Hb & ->).
  pose proof (reachable_invariant _ _ _ _
                (counted_step (annual_rate / 12) monthly_contrib rounding)
                _ _ Hr (counted_start _ _)) as [_ Hn].
  pose proof (reachable_invariant _ _ _ _
                (started_step (annual_rate / 12) monthly_contrib rounding loan_amount)
                _ _ Hr (or_introl eq_refl)) as Hst.
  destruct (groupby_last_numbered _ Hn) as [Hkeys Hlast].
  assert (Hlen : length (rollup (rows st)) = years_of (length (rows st))).
  { rewrite <- (length_map year), rollup_years, Hkeys, length_map, length_seq.
    reflexivity. }
  split; [|split; [exact Hn|split; [|split]]].
  - intros Hgt. destruct Hst as [Hst|Hst]; [|exact Hst].
    rewrite Hst in Hb. lra.
  - rewrite rollup_years, Hlen. exact Hkeys.
  - rewrite Hlen. apply years_of_ceiling.
  - intros yr Hin. unfold rollup in Hin.
    apply in_map_iff in Hin as ([y r] & <- & Hin).
    exists r. simpl. split; [apply Hlast, Hin|]. repeat split.
Qed.


(** ** Trimming and proration *)

(** ** Exceptions *)

Lemma sched_payment_returns (loan_amount m_rate : Q) (term_years : Z) :
  0 < m_rate -> (1 <= term_years)%Z ->
  exists p, sched_payment loan_amount m_rate term_years = Returns p.
Proof.
  intros Hm Ht. unfold sched_payment, pow.
  assert (Hb : Qeq_bool (1 + m_rate) 0 = false) by (apply Qeq_bool_false; lra).
  rewrite Hb. simpl.
  assert (Hg : 1 < (1 + m_rate) ^ (term_years * 12))
    by (apply Qpower_1_lt; [lra | lia]).
  unfold div.
  assert (Hd : Qeq_bool ((1 + m_rate) ^ (term_years * 12) - 1) 0 = false)
    by (apply Qeq_bool_false; lra).
  rewrite Hd. eauto.
Qed.

Lemma period_insufficient (m_rate : Q) (monthly_contrib : list Q)
    (rounding : Z) (st : LoopState) :
  period m_rate monthly_contrib rounding st = Raises InsufficientPayment
  <-> sum monthly_contrib < balance st * m_rate.
Proof.
  split.
  - intros H. apply period_raises, allocate_raises in H as [[_ H]|[H _]];
      [exact H | discriminate].
  - intros H. apply Qltb_lt in H. unfold period, allocate. now rewrite H.
Qed.

Lemma amortization_shared_loop (fuel : nat) (loan_amount annual_rate : Q)
    (term_years : Z) (monthly_contrib downpayments : list Q) (rounding : Z) :
  length downpayments = length monthly_contrib ->
  0 < annual_rate -> (1 <= term_years)%Z ->
  amortization_shared fuel loan_amount annual_rate term_years
    monthly_contrib downpayments rounding
  = (st <- loop fuel (annual_rate / 12) monthly_contrib rounding
             (mkState loan_amount downpayments 0 []) ;;
     Returns (rows st, rollup (rows st))).
Proof.
  intros Hlen Hr Ht. unfold amortization_shared.
  apply Nat.eqb_eq in Hlen. rewrite Hlen. simpl.
  destruct (sched_payment_returns loan_amount (annual_rate / 12) term_years)
    as [p Hp]; [|exact Ht|].
  - apply Qlt_shift_div_l; lra.
  - rewrite Hp. reflexivity.
Qed.

(** C6 (as amended).  Invalid input.  When the two vectors differ in length
    the call raises the length [ValueError] before it computes the scheduled
    payment and before the loop: with any loan terms and whatever fuel the
    loop is given. *)
Theorem invalid_input_lengths (fuel : nat) (loan_amount annual_rate : Q)
    (term_years : Z) (monthly_contrib downpayments : list Q) (rounding : Z) :
  length downpayments <> length monthly_contrib ->
  amortization_shared fuel loan_amount annual_rate term_years
    monthly_contrib downpayments rounding = Raises InvalidInput.
Proof.
  intros H. unfold amortization_shared.
  apply Nat.eqb_neq in H. rewrite H. reflexivity.
Qed.

(** ** Termination *)

Lemma allocate_defined (m_rate : Q) (monthly_contrib : list Q) (bal : Q) :
  ~ sum monthly_contrib == 0 ->
  bal * m_rate <= sum monthly_contrib ->
  0 <= bal ->
  exists a, allocate m_rate monthly_contrib bal = Returns a.
Proof.
  intros Hnz Hle Hb. unfold allocate.
  apply Qltb_ge in Hle. rewrite Hle.
  apply Qeq_bool_false in Hnz. rewrite (prorate_nonzero _ _ _ Hnz). simpl.
  unfold trim. destruct (Qltb bal _) eqn:E; [|simpl; eauto].
  apply Qltb_lt in E. unfold div.
  match goal with
  | |- context [Qeq_bool ?p 0] =>
      assert (Hp : Qeq_bool p 0 = false) by (apply Qeq_bool_false; lra);
      rewrite Hp
  end.
  simpl. eauto.
Qed.

Lemma principal_paid0_eq (m_rate : Q) (monthly_contrib : list Q) (bal : Q)
    (a : Allocation) :
  allocate m_rate monthly_contrib bal = Returns a ->
  monthly_contrib <> [] ->
  principal_paid0 a == contrib_sum a - interest_due a.
Proof.
  intros Ha Hne.
  destruct (allocate_returns _ _ _ _ Ha) as (_ & Hs & _ & _ & Hp & -> & _).
  rewrite Hp, sum_zip_minus.
  - rewrite (interest_parts_sum _ _ _ _ Ha Hne), Hs. reflexivity.
  - rewrite (interest_parts_eq _ _ _ _ Ha). now rewrite length_map.
Qed.

Lemma sum_nonzero_nonempty (l : list Q) : ~ sum l == 0 -> l <> [].
Proof. intros H ->. apply H. reflexivity. Qed.

(** The payment of a period that is not trimmed is what the contributions
    leave after the interest. *)
Lemma paid_cases (m_rate : Q) (monthly_contrib : list Q) (bal : Q)
    (a : Allocation) :
  allocate m_rate monthly_contrib bal = Returns a ->
  monthly_contrib <> [] ->
  (paid a == sum monthly_contrib - bal * m_rate
   /\ sum monthly_contrib - bal * m_rate <= bal)
  \/ (paid a == bal /\ bal < sum monthly_contrib - bal * m_rate).
Proof.
  intros Ha Hne. pose proof (principal_paid0_eq _ _ _ _ Ha Hne) as Hp.
  destruct (allocate_returns _ _ _ _ Ha) as (Hi & Hs & _ & _ & _ & _ & T).
  rewrite Hi, Hs in Hp.
  apply trim_returns in T as [(Hle & _ & ->)|(Hlt & _ & _ & ->)].
  - left. split; [exact Hp | lra].
  - right. split; [reflexivity | lra].
Qed.

Section Termination.

Variable m_rate : Q.
Variable monthly_contrib : list Q.
Variable rounding : Z.

Hypothesis contrib_nonzero : ~ sum monthly_contrib == 0.

(** Contributions that equal the interest leave the balance where it is:
    the loop never ends. *)
Lemma loop_stalls (fuel : nat) (st : LoopState) :
  EPSILON < balance st ->
  balance st * m_rate == sum monthly_contrib ->
  loop fuel m_rate monthly_contrib rounding st = Unfinished.
Proof.
  revert st. induction fuel as [|fuel IH]; intros st Hg Heq; simpl;
    pose proof Hg as Hg'; apply Qltb_lt in Hg'; rewrite Hg'; [reflexivity|].
  assert (Hb0 : 0 <= balance st) by (unfold EPSILON in Hg; lra).
  destruct (allocate_defined m_rate monthly_contrib (balance st))
    as [a Ha]; [assumption | lra | assumption |].
  unfold period. rewrite Ha. simpl bind.
  assert (Hpaid : paid a == 0).
  { destruct (paid_cases _ _ _ _ Ha (sum_nonzero_nonempty _ contrib_nonzero))
      as [[Hp _]|[_ Hlt]]; lra. }
  assert (Hbal : balance (commit rounding st a) == balance st) by (simpl; lra).
  apply IH; rewrite Hbal; assumption.
Qed.

(** Contributions above the interest of the first period pay at least their
    excess [delta] every period, so the loop ends. *)
Lemma loop_ends (delta bound : Q) (fuel : nat) (st : LoopState) :
  0 <= m_rate -> 0 < delta ->
  bound * m_rate + delta <= sum monthly_contrib ->
  balance st <= bound ->
  balance st <= Qnat fuel * delta ->
  exists st', loop fuel m_rate monthly_contrib rounding st = Returns st'.
Proof.
  intros Hm Hd Hs. revert st.
  induction fuel as [|fuel IH]; intros st Hb Hfuel; simpl.
  - destruct (Qltb EPSILON (balance st)) eqn:G; [|eauto].
    apply Qltb_lt in G. change (Qnat 0) with 0 in Hfuel. unfold EPSILON in G. lra.
  - destruct (Qltb EPSILON (balance st)) eqn:G; [|eauto].
    apply Qltb_lt in G.
    assert (Hb0 : 0 <= balance st) by (unfold EPSILON in G; lra).
    assert (Hi : balance st * m_rate <= bound * m_rate)
      by (apply Qmult_le_compat_r; assumption).
    destruct (allocate_defined m_rate monthly_contrib (balance st))
      as [a Ha]; [assumption | lra | assumption |].
    unfold period. rewrite Ha. simpl bind. apply IH.
    + pose proof (paid_nonneg _ _ _ _ Ha Hb0). simpl. lra.
    + rewrite Qnat_S in Hfuel. simpl.
      destruct (paid_cases _ _ _ _ Ha (sum_nonzero_nonempty _ contrib_nonzero))
        as [[Hp _]|[Hp _]]; rewrite Hp.
      * lra.
      * pose proof (Qnat_nonneg fuel).
        assert (0 <= Qnat fuel * delta) by (apply Qmult_le_0_compat; lra). lra.
Qed.

End Termination.

Lemma enough_fuel (x delta : Q) :
  0 < delta -> exists fuel, x <= Qnat fuel * delta.
Proof.
  intros Hd. exists (Z.to_nat (Qceiling (x / delta))).
  pose proof (Qle_ceiling (x / delta)) as Hc.
  assert (Hn : inject_Z (Qceiling (x / delta))
               <= Qnat (Z.to_nat (Qceiling (x / delta)))).
  { unfold Qnat. rewrite <- Zle_Qle. lia. }
  assert (Hx : x == x / delta * delta) by (field; lra).
  rewrite Hx at 1. apply Qmult_le_compat_r; lra.
Qed.

(** Under the preconditions of the specification the call returns whenever
    the contributions strictly exceed the interest of the first period. *)
Theorem amortization_shared_terminates (loan_amount annual_rate : Q)
    (term_years : Z) (monthly_contrib downpayments : list Q) (rounding : Z) :
  length downpayments = length monthly_contrib ->
  0 < loan_amount -> 0 < annual_rate -> (1 <= term_years)%Z ->
  loan_amount * (annual_rate / 12) < sum monthly_contrib ->
  exists fuel out,
    amortization_shared fuel loan_amount annual_rate term_years
      monthly_contrib downpayments rounding = Returns out.
Proof.
  intros Hlen Hl Hr Ht Hs.
  assert (Hm : 0 < annual_rate / 12) by (apply Qlt_shift_div_l; lra).
  assert (Hi : 0 <= loan_amount * (annual_rate / 12))
    by (apply Qmult_le_0_compat; lra).
  set (delta := sum monthly_contrib - loan_amount * (annual_rate / 12)).
  assert (Hd : 0 < delta) by (unfold delta; lra).
  destruct (enough_fuel loan_amount delta Hd) as [fuel Hfuel].
  destruct (loop_ends (annual_rate / 12) monthly_contrib rounding
              ltac:(lra) delta loan_amount fuel
              (mkState loan_amount downpayments 0 []))
    as [st Hst]; simpl; try lra.
  - unfold delta. lra.
  - exists fuel, (rows st, rollup (rows st)).
    rewrite amortization_shared_loop by assumption. now rewrite Hst.
Qed.

(** C3.  Termination fails at the boundary of the interest-coverage check.
    A loan of 128000 at 9.375% a year owes 1000 of interest a month; two
    borrowers paying 500 each pass the check [contrib_sum < interest_due],
    pay no principal, and leave the balance at 128000: whatever the fuel,
    the loop has not finished. *)
Theorem loop_never_ends_at_equality (fuel : nat) :
  amortization_shared fuel 128000 (3 # 32) 30 [500; 500] [0; 0] 2 = Unfinished.
Proof.
  rewrite amortization_shared_loop; [|reflexivity|reflexivity|lia].
  rewrite loop_stalls; [reflexivity| | |]; vm_compute; congruence.
Qed.

(** ** The examples, checked *)

Example round_ties_to_even :
  round (1 # 2) 0 == 0 /\ round (3 # 2) 0 == 2 /\ round (5 # 2) 0 == 2
  /\ round (- (1 # 2)) 0 == 0 /\ round (267 # 100) 1 == 27 # 10
  /\ round 1250 (-2) == 1200 /\ round (1 # 256) 2 == 0.
Proof. vm_compute. repeat split. Qed.

Example rollup_two_years :
  map (fun y => (year y, year_loan_balance y, year_equity y, share y))
      (rollup (demo_rows 14))
  = [(1%Z, inject_Z 88, [inject_Z 12], [Some (12 # 12)]);
     (2%Z, inject_Z 86, [inject_Z 14], [Some (14 # 14)])].
Proof. vm_compute. reflexivity. Qed.





Lemma invalid_input_lengths_witness :
  length [0] <> length [300; 200]
  /\ amortization_shared 0 1000 (12 # 100) 1 [300; 200] [0] 2 = Raises InvalidInput.
Proof.
  assert (H : length [0] <> length [300; 200]) by discriminate.
  split; [exact H|].
  apply (invalid_input_lengths 0 1000 (12 # 100) 1 [300; 200] [0] 2 H).
Defined.

(** A zero rate is not refused: it reaches the scheduled-payment formula,
    which divides by [(1 + 0) ** 360 - 1]. *)
Lemma invalid_input_counterexample :
  length [0] = length [100]
  /\ amortization_shared 5 1000 0 30 [100] [0] 2 = Raises ZeroDivisionError
  /\ amortization_shared 5 1000 0 30 [100] [0] 2 <> Raises InvalidInput.
Proof.
  split; [reflexivity|]. split; [vm_compute; reflexivity|].
  vm_compute. discriminate.
Defined.



Lemma yearly_rollup_semantics_witness :
  amortization_shared 5 1000 (12 # 100) 1 [300; 200] [100; 0] 2
  = Returns (demo_schedule, demo_yearly)
  /\ demo_schedule <> []
  /\ map year demo_yearly = [1%Z]
  /\ exists r,
      last_of_year demo_schedule (year demo_year1) r
      /\ year_loan_balance demo_year1 = loan_balance r
      /\ year_equity demo_year1 = equity r.
Proof.
  assert (H : amortization_shared 5 1000 (12 # 100) 1 [300; 200] [100; 0] 2
              = Returns (demo_schedule, demo_yearly)) by (vm_compute; reflexivity).
  destruct (yearly_rollup_semantics _ _ _ _ _ _ _ _ _ H)
    as (Hne & _ & Hyears & _ & Hlast).
  split; [exact H|]. split; [apply Hne; reflexivity|]. split; [exact Hyears|].
  destruct (Hlast demo_year1 (or_introl eq_refl)) as (r & Hr & _ & Hb & He).
  exists r. auto.
Defined.

(** A positive loan amount below the tolerance of the loop guard, with
    contributions that cover any interest: no payment is made. *)
Lemma yearly_rollup_counterexample :
  0 < 1 # 1048576
  /\ amortization_shared 5 (1 # 1048576) (3 # 32) 1 [1] [0] 2 = Returns ([], []).
Proof. split; [reflexivity | vm_compute; reflexivity]. Defined.


(** * Further properties of the engine and of the page *)

(** ** What is owed and what is owned *)

Section Balanced.

Variable m_rate : Q.
Variable monthly_contrib downpayments : list Q.
Variable rounding : Z.
Variable loan_amount : Q.

Lemma balanced_step (st : LoopState) (a : Allocation) :
  balanced monthly_contrib downpayments rounding loan_amount st ->
  EPSILON < balance st ->
  allocate m_rate monthly_contrib (balance st) = Returns a ->
  balanced monthly_contrib downpayments rounding loan_amount (commit rounding st a).
Proof.
  intros (Hlen & Hsum & Hrows) _ Ha.
  pose proof (principal_parts_length _ _ _ _ Ha) as Hpl.
  pose proof (principal_parts_sum _ _ _ _ Ha) as Hps.
  assert (Hlen' : length (cum_equity (commit rounding st a)) = length monthly_contrib).
  { simpl. rewrite zip_with_length; congruence. }
  assert (Hce : sum (cum_equity (commit rounding st a))
                == sum (cum_equity st) + paid a).
  { simpl. rewrite sum_zip_plus by congruence. rewrite Hps. reflexivity. }
  assert (Hsum' : balance (commit rounding st a) + sum (cum_equity (commit rounding st a))
                  == loan_amount + sum downpayments).
  { rewrite Hce. simpl. lra. }
  split; [exact Hlen'|]. split; [exact Hsum'|].
  intros r Hin. rewrite rows_commit in Hin. apply in_app_or in Hin as [Hin|[<-|[]]].
  - now apply Hrows.
  - simpl equity. simpl loan_balance.
    change (zip_with Qplus (cum_equity st) (principal_parts a))
      with (cum_equity (commit rounding st a)).
    change (balance st - paid a) with (balance (commit rounding st a)).
    split; [now rewrite length_map|].
    pose proof (sum_round_within (cum_equity (commit rounding st a)) rounding) as He.
    pose proof (round_error (balance (commit rounding st a)) rounding) as Hb.
    rewrite Hlen' in He. unfold within in *.
    rewrite Nat.add_1_r, Qnat_S. lra.
Qed.

Lemma balanced_start :
  length downpayments = length monthly_contrib ->
  balanced monthly_contrib downpayments rounding loan_amount
    (mkState loan_amount downpayments 0 []).
Proof.
  intros Hlen. split; [exact Hlen|]. split; [simpl; reflexivity|]. intros r [].
Qed.



End Balanced.



(** The two tables are rectangular: every row of a returned schedule has one
    equity per borrower, every row of the roll-up one equity and one share
    per borrower. *)
Theorem tables_rectangular (fuel : nat) (loan_amount annual_rate : Q)
    (term_years : Z) (monthly_contrib downpayments : list Q) (rounding : Z)
    (schedule : list Row) (yearly : list YearRow) :
  amortization_shared fuel loan_amount annual_rate term_years
    monthly_contrib downpayments rounding = Returns (schedule, yearly) ->
  (forall r, In r schedule -> length (equity r) = length monthly_contrib)
  /\ (forall yr,
         In yr yearly ->
         length (year_equity yr) = length monthly_contrib
         /\ length (share yr) = length monthly_contrib).
Proof.
  intros H.
  apply amortization_shared_returns in H as (Hlen & -> & st & Hr & _ & ->).
  pose proof (reachable_invariant _ _ _ _
                (balanced_step (annual_rate / 12) monthly_contrib downpayments
                   rounding loan_amount)
                _ _ Hr (balanced_start _ _ _ _ Hlen)) as (_ & _ & Hrows).
  split.
  - intros r Hin. now apply Hrows.
  - intros yr Hin. unfold rollup in Hin.
    apply in_map_iff in Hin as ([y r] & <- & Hin).
    apply groupby_last_In in Hin as [Hin _]. simpl in Hin.
    destruct (Hrows r Hin) as [Hl _]. simpl. rewrite length_map. auto.
Qed.

Lemma tables_rectangular_witness :
  amortization_shared 5 1000 (12 # 100) 1 [300; 200] [100; 0] 2
  = Returns (demo_schedule, demo_yearly)
  /\ length (equity demo_row3) = 2%nat
  /\ length (share demo_year1) = 2%nat.
Proof.
  assert (H : amortization_shared 5 1000 (12 # 100) 1 [300; 200] [100; 0] 2
              = Returns (demo_schedule, demo_yearly)) by (vm_compute; reflexivity).
  destruct (tables_rectangular _ _ _ _ _ _ _ _ _ H) as [Hrows Hyears].
  split; [exact H|]. split.
  - apply (Hrows demo_row3). right; right; left; reflexivity.
  - apply (Hyears demo_year1). left; reflexivity.
Defined.



(** ** The shape of the schedule *)

Section Shape.

Variable m_rate : Q.
Variable monthly_contrib : list Q.
Variable rounding : Z.

Hypothesis some_borrower : monthly_contrib <> [].



Hypothesis rate_nonneg : 0 <= m_rate.





End Shape.







(** ** How a call ends *)

Section Ending.

Variable m_rate : Q.
Variable monthly_contrib : list Q.
Variable rounding : Z.

Lemma loop_raises (fuel : nat) (st0 : LoopState) (e : exception) :
  loop fuel m_rate monthly_contrib rounding st0 = Raises e ->
  exists st,
    reachable m_rate monthly_contrib rounding st0 st
    /\ EPSILON < balance st
    /\ period m_rate monthly_contrib rounding st = Raises e.
Proof.
  revert st0. induction fuel as [|fuel IH]; intros st0; simpl;
    destruct (Qltb EPSILON (balance st0)) eqn:G; try discriminate.
  apply Qltb_lt in G.
  destruct (period m_rate monthly_contrib rounding st0) as [st1| |] eqn:P;
    simpl; try discriminate.
  - intros H. destruct (IH _ H) as (st & Hr & Hg & Hp).
    exists st. split; [eapply reach_step; eassumption | auto].
  - intros H. inversion H; subst. exists st0. split; [constructor | auto].
Qed.

Lemma loop_rows_bound (fuel : nat) (st0 st : LoopState) :
  loop fuel m_rate monthly_contrib rounding st0 = Returns st ->
  (length (rows st) <= length (rows st0) + fuel)%nat.
Proof.
  revert st0. induction fuel as [|fuel IH]; intros st0; simpl;
    destruct (Qltb EPSILON (balance st0)) eqn:G; try discriminate;
    try (intros H; inversion H; subst; lia).
  destruct (period m_rate monthly_contrib rounding st0) as [st1| |] eqn:P;
    simpl; try discriminate.
  intros H. apply IH in H. apply period_returns in P as (a & _ & ->).
  rewrite rows_commit, length_app in H. simpl in H. lia.
Qed.

Lemma balance_never_grows (bound : Q) (st : LoopState) (a : Allocation) :
  balance st <= bound ->
  EPSILON < balance st ->
  allocate m_rate monthly_contrib (balance st) = Returns a ->
  balance (commit rounding st a) <= bound.
Proof.
  intros Hb G Ha.
  assert (Hb0 : 0 <= balance st) by (unfold EPSILON in G; lra).
  pose proof (paid_nonneg _ _ _ _ Ha Hb0). simpl. lra.
Qed.

End Ending.

(** What a call can raise once the lengths agree, the rate is positive and
    the term is at least a year. *)
Lemma raises_insufficient (fuel : nat) (loan_amount annual_rate : Q)
    (term_years : Z) (monthly_contrib downpayments : list Q) (rounding : Z)
    (e : exception) :
  length downpayments = length monthly_contrib ->
  0 < annual_rate -> (1 <= term_years)%Z ->
  amortization_shared fuel loan_amount annual_rate term_years
    monthly_contrib downpayments rounding = Raises e ->
  e = InsufficientPayment
  /\ EPSILON < loan_amount
  /\ sum monthly_contrib < loan_amount * (annual_rate / 12).
Proof.
  intros Hlen Hrate Ht H.
  rewrite amortization_shared_loop in H by assumption.
  destruct (loop _ _ _ _ _) as [st| |] eqn:L; try discriminate.
  simpl in H. inversion H; subst e0. clear H.
  apply loop_raises in L as (st & Hr & Hg & Hp).
  assert (Hm : 0 < annual_rate / 12) by (apply Qlt_shift_div_l; lra).
  pose proof (reachable_invariant _ _ _ (fun s => balance s <= loan_amount)
                (balance_never_grows (annual_rate / 12) monthly_contrib rounding
                   loan_amount)
                _ _ Hr (Qle_refl _)) as Hb.
  cbv beta in Hb.
  assert (Hi : balance st * (annual_rate / 12) <= loan_amount * (annual_rate / 12))
    by (apply Qmult_le_compat_r; lra).
  assert (Hpos : 0 < balance st * (annual_rate / 12)).
  { apply Qmult_lt_0_compat; [unfold EPSILON in Hg|]; lra. }
  apply period_raises in Hp. pose proof Hp as Hp'.
  apply allocate_raises in Hp' as [[-> Hlt]|[_ Hle]].
  - split; [reflexivity|]. split; lra.
  - exfalso.
    destruct (allocate_defined (annual_rate / 12) monthly_contrib (balance st))
      as [a Ha]; [lra | exact Hle | unfold EPSILON in Hg; lra |].
    congruence.
Qed.

(** ** The page's use of the schedule *)

Lemma months_to_payoff_numbered (schedule : list Row) :
  numbered schedule -> schedule <> [] ->
  months_to_payoff schedule = Some (Z.of_nat (length schedule)).
Proof.
  intros Hn Hne. destruct (exists_last Hne) as (l & r & ->).
  unfold months_to_payoff. rewrite rev_app_distr. simpl.
  rewrite (Hn l r [] eq_refl), length_app. simpl. f_equal. lia.
Qed.

Lemma reachable_stays (m_rate : Q) (monthly_contrib : list Q) (rounding : Z)
    (st0 st : LoopState) :
  reachable m_rate monthly_contrib rounding st0 st ->
  balance st0 <= EPSILON -> st = st0.
Proof.
  intros Hr Hle. destruct Hr as [st|st0 st1 st G _ _]; [reflexivity|]. lra.
Qed.

Lemma returned_schedule_numbered (fuel : nat) (loan_amount annual_rate : Q)
    (term_years : Z) (monthly_contrib downpayments : list Q) (rounding : Z)
    (schedule : list Row) (yearly : list YearRow) :
  amortization_shared fuel loan_amount annual_rate term_years
    monthly_contrib downpayments rounding = Returns (schedule, yearly) ->
  numbered schedule
  /\ (EPSILON < loan_amount -> schedule <> [])
  /\ (loan_amount <= EPSILON -> schedule = []).
Proof.
  intros H.
  apply amortization_shared_returns in H as (_ & _ & st & Hr & Hb & ->).
  pose proof (reachable_invariant _ _ _ _
                (counted_step (annual_rate / 12) monthly_contrib rounding)
                _ _ Hr (counted_start _ _)) as [_ Hn].
  pose proof (reachable_invariant _ _ _ _
                (started_step (annual_rate / 12) monthly_contrib rounding loan_amount)
                _ _ Hr (or_introl eq_refl)) as Hst.
  split; [exact Hn|]. split.
  - intros Hgt. destruct Hst as [Hst|Hst]; [|exact Hst]. rewrite Hst in Hb. lra.
  - intros Hle. now rewrite (reachable_stays _ _ _ _ _ Hr Hle).
Qed.

(** The page's "months to payoff", the payment number of the last row, is
    the number of rows of the returned schedule when the loan amount exceeds
    the tolerance [1e-6]; at or below it the schedule is empty and reading
    its last row fails. *)
Theorem months_to_payoff_counts (fuel : nat) (loan_amount annual_rate : Q)
    (term_years : Z) (monthly_contrib downpayments : list Q) (rounding : Z)
    (schedule : list Row) (yearly : list YearRow) :
  amortization_shared fuel loan_amount annual_rate term_years
    monthly_contrib downpayments rounding = Returns (schedule, yearly) ->
  (EPSILON < loan_amount ->
   months_to_payoff schedule = Some (Z.of_nat (length schedule)))
  /\ (loan_amount <= EPSILON -> months_to_payoff schedule = None).
Proof.
  intros H. apply returned_schedule_numbered in H as (Hn & Hne & Hempty). split.
  - intros Hgt. apply months_to_payoff_numbered; auto.
  - intros Hle. now rewrite (Hempty Hle).
Qed.

Lemma months_to_payoff_counts_witness :
  amortization_shared 5 1000 (12 # 100) 1 [300; 200] [100; 0] 2
  = Returns (demo_schedule, demo_yearly)
  /\ EPSILON < 1000
  /\ months_to_payoff demo_schedule = Some 3%Z.
Proof.
  assert (H : amortization_shared 5 1000 (12 # 100) 1 [300; 200] [100; 0] 2
              = Returns (demo_schedule, demo_yearly)) by (vm_compute; reflexivity).
  assert (Hg : EPSILON < 1000) by reflexivity.
  split; [exact H|]. split; [exact Hg|].
  exact (proj1 (months_to_payoff_counts _ _ _ _ _ _ _ _ _ H) Hg).
Defined.

(** ** Fractions in lowest terms build the same tables *)

Lemma Qltb_comp (x x' y y' : Q) : x == x' -> y == y' -> Qltb x y = Qltb x' y'.
Proof.
  intros Hx Hy. destruct (Qltb x' y') eqn:E.
  - apply Qltb_lt. apply Qltb_lt in E. now rewrite Hx, Hy.
  - apply Qltb_ge. apply Qltb_ge in E. now rewrite Hx, Hy.
Qed.

Lemma Qeq_bool_comp (x x' : Q) : x == x' -> Qeq_bool x 0 = Qeq_bool x' 0.
Proof.
  intros Hx. destruct (Qeq_bool x' 0) eqn:E.
  - apply Qeq_bool_iff. apply Qeq_bool_iff in E. now rewrite Hx.
  - apply Qeq_bool_false. apply Qeq_bool_false in E. now rewrite Hx.
Qed.

Lemma half_even_comp (x y : Q) : x == y -> half_even x = half_even y.
Proof.
  intros H. unfold half_even. rewrite (Qfloor_comp _ _ H).
  assert (Hc : Qcompare (x - inject_Z (Qfloor y)) (1 # 2)
               = Qcompare (y - inject_Z (Qfloor y)) (1 # 2))
    by (now rewrite H).
  now rewrite Hc.
Qed.

(** Rounding depends on the value only, and writes it in one way. *)
Lemma round_eq (x y : Q) (d : Z) : x == y -> round x d = round y d.
Proof.
  intros H. unfold round.
  rewrite (half_even_comp (x * 10 ^ d) (y * 10 ^ d)) by (now rewrite H).
  reflexivity.
Qed.

Lemma map_round_eq (d : Z) (l l' : list Q) :
  Forall2 Qeq l l' ->
  map (fun e => round e d) l = map (fun e => round e d) l'.
Proof.
  induction 1 as [|x y l l' Hxy _ IH]; simpl; [reflexivity|].
  now rewrite (round_eq _ _ d Hxy), IH.
Qed.

Lemma sum_comp (l l' : list Q) : Forall2 Qeq l l' -> sum l == sum l'.
Proof.
  induction 1 as [|x y l l' Hxy _ IH]; [reflexivity|].
  now rewrite !sum_cons, Hxy, IH.
Qed.

Lemma Forall2_Qeq_refl (l : list Q) : Forall2 Qeq l l.
Proof. induction l; constructor; [reflexivity | assumption]. Qed.

Lemma Forall2_Qeq_map (f g : Q -> Q) (l : list Q) :
  (forall c, f c == g c) -> Forall2 Qeq (map f l) (map g l).
Proof.
  intros H. induction l; simpl; constructor; [apply H | assumption].
Qed.

Lemma Forall2_Qeq_map2 (f : Q -> Q) (l l' : list Q) :
  (forall x y, x == y -> f x == f y) ->
  Forall2 Qeq l l' -> Forall2 Qeq (map f l) (map f l').
Proof.
  intros H. induction 1; simpl; constructor; [now apply H | assumption].
Qed.

Lemma Forall2_Qeq_zip (f : Q -> Q -> Q) (a a' b b' : list Q) :
  (forall x x' y y', x == x' -> y == y' -> f x y == f x' y') ->
  Forall2 Qeq a a' -> Forall2 Qeq b b' ->
  Forall2 Qeq (zip_with f a b) (zip_with f a' b').
Proof.
  intros Hf Ha. revert b b'. unfold zip_with.
  induction Ha as [|x x' a a' Hx _ IH]; intros b b' Hb; simpl; [constructor|].
  destruct Hb as [|y y' b b' Hy Hb]; simpl; constructor.
  - now apply Hf.
  - now apply IH.
Qed.

Section SameValues.

Variable m_rate : Q.
Variable monthly_contrib : list Q.
Variable rounding : Z.

Lemma prorate_comp (csum idue idue' : Q) :
  idue == idue' ->
  agree (Forall2 Qeq) (prorate monthly_contrib csum idue)
    (prorate monthly_contrib csum idue').
Proof.
  intros H. destruct (Qeq_bool csum 0) eqn:E.
  - rewrite !(prorate_zero _ _ _ E). destruct monthly_contrib; simpl; auto.
  - rewrite !(prorate_nonzero _ _ _ E). simpl.
    apply Forall2_Qeq_map. intros c. now rewrite H.
Qed.

Lemma trim_comp (bal bal' ppaid ppaid' : Q) (parts parts' : list Q) :
  bal == bal' -> ppaid == ppaid' -> Forall2 Qeq parts parts' ->
  agree (fun t t' => Forall2 Qeq (fst t) (fst t') /\ snd t == snd t')
    (trim bal parts ppaid) (trim bal' parts' ppaid').
Proof.
  intros Hb Hp Hparts. unfold trim.
  rewrite (Qltb_comp _ _ _ _ Hb Hp). destruct (Qltb bal' ppaid').
  - unfold div. rewrite (Qeq_bool_comp _ _ Hp).
    destruct (Qeq_bool ppaid' 0) eqn:E; simpl; [reflexivity|].
    apply Qeq_bool_false in E. split; [|exact Hb].
    assert (Hs : bal / ppaid == bal' / ppaid') by (now rewrite Hb, Hp).
    clear Hb Hp. induction Hparts as [|x y l l' Hxy _ IH]; simpl; constructor.
    + now rewrite Hxy, Hs.
    + exact IH.
  - simpl. auto.
Qed.

Lemma allocate_comp (bal bal' : Q) :
  bal == bal' ->
  agree (fun a a' =>
           paid a == paid a'
           /\ interest_due a == interest_due a'
           /\ Forall2 Qeq (principal_parts a) (principal_parts a'))
    (allocate m_rate monthly_contrib bal) (allocate m_rate monthly_contrib bal').
Proof.
  intros Hb. unfold allocate.
  assert (Hi : bal * m_rate == bal' * m_rate) by (now rewrite Hb).
  rewrite (Qltb_comp _ _ _ _ (Qeq_refl (sum monthly_contrib)) Hi).
  destruct (Qltb (sum monthly_contrib) (bal' * m_rate)); [reflexivity|].
  pose proof (prorate_comp (sum monthly_contrib) _ _ Hi) as Hp.
  destruct (prorate monthly_contrib (sum monthly_contrib) (bal * m_rate))
    as [ip| |];
    destruct (prorate monthly_contrib (sum monthly_contrib) (bal' * m_rate))
    as [ip'| |]; simpl in Hp; try contradiction; simpl; auto.
  assert (Hparts : Forall2 Qeq (zip_with Qminus monthly_contrib ip)
                     (zip_with Qminus monthly_contrib ip')).
  { apply Forall2_Qeq_zip; [|apply Forall2_Qeq_refl|exact Hp].
    intros x x' y y' Hx Hy. now rewrite Hx, Hy. }
  pose proof (trim_comp _ _ _ _ _ _ Hb (sum_comp _ _ Hparts) Hparts) as Ht.
  destruct (trim bal _ _) as [[l p]| |];
    destruct (trim bal' _ _) as [[l' p']| |]; simpl in Ht; try contradiction;
    simpl; auto.
  destruct Ht as [Hl Hpp]. auto.
Qed.

Lemma period_comp (st st' : LoopState) :
  same_values st st' ->
  agree same_values (period m_rate monthly_contrib rounding st)
    (period m_rate monthly_contrib rounding st').
Proof.
  intros (Hb & He & Hc & Hr). unfold period.
  pose proof (allocate_comp _ _ Hb) as Ha.
  destruct (allocate m_rate monthly_contrib (balance st)) as [a| |];
    destruct (allocate m_rate monthly_contrib (balance st')) as [a'| |];
    simpl in Ha; try contradiction; simpl; auto.
  destruct Ha as (Hp & Hi & Hparts).
  assert (Hbal : balance st - paid a == balance st' - paid a')
    by (now rewrite Hb, Hp).
  assert (Heq : Forall2 Qeq (zip_with Qplus (cum_equity st) (principal_parts a))
                  (zip_with Qplus (cum_equity st') (principal_parts a'))).
  { apply Forall2_Qeq_zip; [|exact He|exact Hparts].
    intros x x' y y' Hx Hy. now rewrite Hx, Hy. }
  split; [exact Hbal|]. split; [exact Heq|]. split; [simpl; now rewrite Hc|].
  unfold commit. cbv zeta. simpl rows.
  rewrite Hr, Hc, (round_eq _ _ rounding Hp), (round_eq _ _ rounding Hi),
    (round_eq _ _ rounding Hbal), (map_round_eq rounding _ _ Heq).
  reflexivity.
Qed.

Lemma loop_comp (fuel : nat) (st st' : LoopState) :
  same_values st st' ->
  finish (loop fuel m_rate monthly_contrib rounding st)
  = finish (loop fuel m_rate monthly_contrib rounding st').
Proof.
  revert st st'. induction fuel as [|fuel IH]; intros st st' Hs; simpl;
    pose proof Hs as (Hb & _ & _ & Hr);
    rewrite (Qltb_comp _ _ _ _ (Qeq_refl EPSILON) Hb);
    destruct (Qltb EPSILON (balance st')); simpl; try reflexivity;
    try (now rewrite Hr).
  pose proof (period_comp _ _ Hs) as Hp.
  destruct (period m_rate monthly_contrib rounding st) as [s| |];
    destruct (period m_rate monthly_contrib rounding st') as [s'| |];
    simpl in Hp; try contradiction; simpl.
  - now apply IH.
  - now rewrite Hp.
  - reflexivity.
Qed.

Lemma reduce_state_same (st : LoopState) : same_values st (reduce_state st).
Proof.
  split; [simpl; now rewrite Qred_correct|]. split; [|split; reflexivity].
  simpl. induction (cum_equity st); simpl; constructor;
    [now rewrite Qred_correct | assumption].
Qed.

(** The loop that reduces its fractions builds the tables of the loop. *)
Lemma loop_reduced_finish (fuel : nat) (st : LoopState) :
  finish (loop fuel m_rate monthly_contrib rounding st)
  = finish (loop_reduced fuel m_rate monthly_contrib rounding st).
Proof.
  revert st. induction fuel as [|fuel IH]; intros st; simpl; [reflexivity|].
  destruct (Qltb EPSILON (balance st)); [|reflexivity].
  destruct (period m_rate monthly_contrib rounding st) as [s| |]; simpl;
    try reflexivity.
  rewrite (loop_comp fuel s (reduce_state s) (reduce_state_same s)). apply IH.
Qed.

End SameValues.

Lemma amortization_shared_reduced (fuel : nat) (loan_amount annual_rate : Q)
    (term_years : Z) (monthly_contrib downpayments : list Q) (rounding : Z) :
  length downpayments = length monthly_contrib ->
  0 < annual_rate -> (1 <= term_years)%Z ->
  amortization_shared fuel loan_amount annual_rate term_years
    monthly_contrib downpayments rounding
  = finish (loop_reduced fuel (annual_rate / 12) monthly_contrib rounding
              (mkState loan_amount downpayments 0 [])).
Proof.
  intros Hlen Hr Ht. rewrite amortization_shared_loop by assumption.
  apply loop_reduced_finish.
Qed.

Lemma long_schedule_returned :
  amortization_shared 14 8 1 1 [1] [0] 0 = Returns (long_schedule, long_yearly).
Proof.
  rewrite amortization_shared_reduced; [|reflexivity|reflexivity|lia].
  vm_compute. reflexivity.
Defined.

(** ** The year-end snapshot *)








(** ** How long the payoff takes, and what it costs *)

Section Pace.

Variable m_rate : Q.
Variable monthly_contrib : list Q.
Variable rounding : Z.

Hypothesis some_borrower : monthly_contrib <> [].
Hypothesis rate_nonneg : 0 <= m_rate.

Lemma paid_le_contributions (bal : Q) (a : Allocation) :
  0 <= bal ->
  allocate m_rate monthly_contrib bal = Returns a ->
  paid a + interest_due a <= sum monthly_contrib /\ 0 <= interest_due a.
Proof.
  intros Hb Ha. destruct (allocate_returns _ _ _ _ Ha) as (Hi & _).
  assert (H0 : 0 <= bal * m_rate) by (apply Qmult_le_0_compat; assumption).
  rewrite Hi.
  destruct (paid_cases _ _ _ _ Ha some_borrower) as [[Hp _]|[Hp Hlt]]; split; lra.
Qed.

Lemma still_owing_step (loan_amount : Q) (st : LoopState) (a : Allocation) :
  loan_amount - Qnat (length (rows st)) * sum monthly_contrib <= balance st ->
  EPSILON < balance st ->
  allocate m_rate monthly_contrib (balance st) = Returns a ->
  loan_amount - Qnat (length (rows (commit rounding st a))) * sum monthly_contrib
  <= balance (commit rounding st a).
Proof.
  intros H G Ha.
  assert (Hb0 : 0 <= balance st) by (unfold EPSILON in G; lra).
  destruct (paid_le_contributions _ _ Hb0 Ha) as [Hp Hi].
  rewrite rows_commit, length_app. simpl. rewrite Nat.add_1_r, Qnat_S. lra.
Qed.



End Pace.




(** ** Who owns what *)

Lemma zip_accumulate (f g h : Q -> Q) (monthly_contrib : list Q) :
  (forall c, f c + g c == h c) ->
  forall downpayments ce parts,
    length downpayments = length monthly_contrib ->
    Forall2 Qeq ce (zip_with Qplus downpayments (map f monthly_contrib)) ->
    Forall2 Qeq parts (map g monthly_contrib) ->
    Forall2 Qeq (zip_with Qplus ce parts)
      (zip_with Qplus downpayments (map h monthly_contrib)).
Proof.
  intros Hfg. unfold zip_with.
  induction monthly_contrib as [|c mc IH]; intros [|d dp] ce parts Hlen Hce Hp;
    try discriminate; simpl in *.
  - inversion Hce. constructor.
  - inversion Hce as [|e x ce' l He Hce' E1 E2]; subst.
    inversion Hp as [|p y parts' l' Hpc Hp' E1 E2]; subst.
    simpl. constructor.
    + rewrite He, Hpc, <- Hfg. ring.
    + apply IH; [lia | assumption | assumption].
Qed.

Section Shares.

Variable m_rate : Q.
Variable monthly_contrib downpayments : list Q.
Variable rounding : Z.
Variable loan_amount : Q.

Hypothesis some_borrower : monthly_contrib <> [].
Hypothesis same_length : length downpayments = length monthly_contrib.

(** Trimmed or not, the principal of a period is shared out in proportion
    to the contributions. *)
Lemma parts_proportional (bal : Q) (a : Allocation) :
  allocate m_rate monthly_contrib bal = Returns a ->
  Forall2 Qeq (principal_parts a)
    (map (fun c => c / sum monthly_contrib * paid a) monthly_contrib).
Proof.
  intros Ha.
  pose proof (principal_parts0_eq _ _ _ _ Ha) as H0.
  pose proof (principal_paid0_eq _ _ _ _ Ha some_borrower) as Hpp.
  pose proof (contrib_sum_nonzero _ _ _ _ Ha some_borrower) as Hnz.
  destruct (allocate_returns _ _ _ _ Ha) as (_ & Hs & _ & _ & _ & _ & T).
  rewrite Hs in *.
  apply trim_returns in T as [(_ & -> & ->)|(_ & Hnz' & -> & ->)]; rewrite H0.
  - apply Forall2_Qeq_map. intros c. rewrite Hpp. field. exact Hnz.
  - rewrite map_map. apply Forall2_Qeq_map. intros c.
    setoid_replace (c - c / sum monthly_contrib * interest_due a)
      with (c / sum monthly_contrib * principal_paid0 a)
      by (rewrite Hpp; field; exact Hnz).
    field. split; assumption.
Qed.

Lemma shared_out_step (st : LoopState) (a : Allocation) :
  shared_out monthly_contrib downpayments rounding loan_amount st ->
  EPSILON < balance st ->
  allocate m_rate monthly_contrib (balance st) = Returns a ->
  shared_out monthly_contrib downpayments rounding loan_amount
    (commit rounding st a).
Proof.
  intros (Hce & Hrows) _ Ha.
  assert (Hce' : Forall2 Qeq (cum_equity (commit rounding st a))
                   (equity_due monthly_contrib downpayments loan_amount
                      (balance (commit rounding st a)))).
  { unfold equity_due in *. simpl.
    apply (zip_accumulate
             (fun c => c / sum monthly_contrib * (loan_amount - balance st))
             (fun c => c / sum monthly_contrib * paid a));
      [|exact same_length|exact Hce|exact (parts_proportional _ _ Ha)].
    intros c. ring. }
  split; [exact Hce'|].
  intros r Hin. rewrite rows_commit in Hin. apply in_app_or in Hin as [Hin|[<-|[]]].
  - now apply Hrows.
  - exists (balance (commit rounding st a)). split; [reflexivity|].
    simpl equity. unfold rounded. apply map_round_eq. exact Hce'.
Qed.

Lemma shared_out_start :
  shared_out monthly_contrib downpayments rounding loan_amount
    (mkState loan_amount downpayments 0 []).
Proof.
  split; [|intros r []]. simpl. unfold equity_due, zip_with.
  clear some_borrower. revert same_length.
  generalize (sum monthly_contrib) as s. intros s.
  revert downpayments. induction monthly_contrib as [|c mc IH];
    intros [|d dp] Hlen; try discriminate; simpl; constructor.
  - unfold Qminus. rewrite Qplus_opp_r, Qmult_0_r, Qplus_0_r. reflexivity.
  - apply IH. simpl in Hlen. lia.
Qed.

End Shares.

(** ** The roll-up against the schedule *)



Lemma groupby_last_ends (schedule : list Row) (x : Row) :
  numbered (schedule ++ [x]) ->
  exists groups, groupby_last (schedule ++ [x]) = groups ++ [(year_of x, x)].
Proof.
  intros Hn. apply numbered_snoc in Hn as [Hn Hx].
  destruct (groupby_last_numbered _ Hn) as [Hkeys _].
  rewrite groupby_last_snoc.
  assert (Hyear : year_of x = ((Z.of_nat (length schedule) + 1 - 1) / 12 + 1)%Z)
    by (unfold year_of; now rewrite Hx).
  set (G := groupby_last schedule) in *.
  destruct (years_of_step (length schedule)) as [[Hy _]|(Hy & _ & Hpos)];
    cbv zeta in Hy; rewrite <- Hyear in Hy.
  - exists G. apply put_last_above. intros p Hp.
    pose proof (keys_bound _ _ _ Hkeys Hp). lia.
  - destruct (exists_last (l := G)) as (G0 & [k r0] & HG).
    { intros E. rewrite E in Hkeys. simpl in Hkeys.
      destruct (years_of (length schedule)); [lia | discriminate]. }
    destruct (years_of (length schedule)) as [|m] eqn:Em; [lia|].
    rewrite HG, map_app, seq_S, map_app in Hkeys. simpl in Hkeys.
    apply app_inj_tail in Hkeys as [Hk0 Hk].
    assert (Hkx : k = year_of x) by lia. rewrite Hkx in HG.
    exists G0. rewrite HG. apply put_last_replace. intros p Hp.
    pose proof (keys_bound _ _ _ Hk0 Hp). lia.
Qed.

(** The last row of a returned roll-up is the year-end snapshot of the last
    payment: it carries the year, the balance and the equities of the last
    row of the schedule, which is what the page reads its final ownership
    from. *)
Theorem final_year_is_final_row (fuel : nat) (loan_amount annual_rate : Q)
    (term_years : Z) (monthly_contrib downpayments : list Q) (rounding : Z)
    (schedule : list Row) (yearly : list YearRow) :
  amortization_shared fuel loan_amount annual_rate term_years
    monthly_contrib downpayments rounding = Returns (schedule, yearly) ->
  forall l x,
    schedule = l ++ [x] ->
    exists ys yr,
      yearly = ys ++ [yr]
      /\ year yr = year_of x
      /\ year_loan_balance yr = loan_balance x
      /\ year_equity yr = equity x.
Proof.
  intros H l x Hs.
  apply amortization_shared_returns in H as (_ & -> & st & Hr & _ & ->).
  pose proof (reachable_invariant _ _ _ _
                (counted_step (annual_rate / 12) monthly_contrib rounding)
                _ _ Hr (counted_start _ _)) as [_ Hn].
  rewrite Hs in *. destruct (groupby_last_ends _ _ Hn) as [groups HG].
  exists (map year_row groups), (year_row (year_of x, x)).
  unfold rollup. rewrite HG, map_app. simpl. auto.
Qed.

Lemma final_year_is_final_row_witness :
  amortization_shared 14 8 1 1 [1] [0] 0 = Returns (long_schedule, long_yearly)
  /\ long_schedule = firstn 13 long_schedule ++ [long_row14]
  /\ exists ys yr,
      long_yearly = ys ++ [yr]
      /\ year yr = year_of long_row14
      /\ year_loan_balance yr = loan_balance long_row14
      /\ year_equity yr = equity long_row14.
Proof.
  assert (Hs : long_schedule = firstn 13 long_schedule ++ [long_row14])
    by reflexivity.
  split; [exact long_schedule_returned|]. split; [exact Hs|].
  exact (final_year_is_final_row 14 8 1 1 [1] [0] 0 long_schedule long_yearly
           long_schedule_returned (firstn 13 long_schedule) long_row14 Hs).
Defined.

(** ** Column labels *)







(** * Properties of the engine on binary64 *)

Section Binary64Facts.

Import Floats.
Local Open Scope float_scope.

Local Abbreviation EPS := Binary64.EPSILON.

(** ** Doubles *)



Lemma EPSILON_zero : (EPS <? 0) = false.
Proof. reflexivity. Qed.

(** ** One period *)



Lemma b64_div_finished (x y : float) : Binary64.div x y <> Unfinished.
Proof. unfold Binary64.div. destruct (y =? 0); discriminate. Qed.


Lemma b64_round_finished (x : float) (d : Z) : Binary64.round x d <> Unfinished.
Proof.
  unfold Binary64.round. destruct (Binary64.exact x); [|discriminate].
  destruct (323 <? d)%Z; [discriminate|].
  destruct (d <? -308)%Z; [discriminate|].
  destruct (is_infinity _); discriminate.
Qed.


Lemma b64_rounds_finished (d : Z) (l : list float) :
  mapM (fun x => Binary64.round x d) l <> Unfinished.
Proof.
  induction l as [|x l IH]; simpl; [discriminate|].
  pose proof (b64_round_finished x d).
  destruct (Binary64.round x d); simpl; try congruence.
  destruct (mapM _ l); simpl; congruence.
Qed.

Section Period64.

Variable version : Binary64.summation.
Variable m_rate : float.
Variable monthly_contrib : list float.

Lemma b64_prorate_nonzero (csum idue : float) :
  (csum =? 0) = false ->
  Binary64.prorate monthly_contrib csum idue
  = Returns (map (fun c => c / csum * idue) monthly_contrib).
Proof.
  intros E. unfold Binary64.prorate.
  induction monthly_contrib as [|c mc IH]; simpl; [reflexivity|].
  unfold Binary64.div at 1. rewrite E. simpl. rewrite IH. reflexivity.
Qed.

Lemma b64_prorate_zero (csum idue : float) :
  (csum =? 0) = true ->
  Binary64.prorate monthly_contrib csum idue
  = match monthly_contrib with
    | [] => Returns []
    | _ :: _ => Raises ZeroDivisionError
    end.
Proof.
  intros E. unfold Binary64.prorate.
  destruct monthly_contrib as [|c mc]; simpl; [reflexivity|].
  unfold Binary64.div at 1. rewrite E. reflexivity.
Qed.



Lemma b64_prorate_finished (csum idue : float) :
  Binary64.prorate monthly_contrib csum idue <> Unfinished.
Proof.
  destruct (csum =? 0) eqn:E.
  - rewrite (b64_prorate_zero _ _ E). destruct monthly_contrib; discriminate.
  - rewrite (b64_prorate_nonzero _ _ E). discriminate.
Qed.



Lemma b64_trim_finished (bal ppaid : float) (parts : list float) :
  Binary64.trim bal parts ppaid <> Unfinished.
Proof.
  unfold Binary64.trim. destruct (bal <? ppaid); [|discriminate].
  pose proof (b64_div_finished bal ppaid).
  destruct (Binary64.div bal ppaid); simpl; congruence.
Qed.



Lemma b64_allocate_finished (bal : float) :
  Binary64.allocate version m_rate monthly_contrib bal <> Unfinished.
Proof.
  unfold Binary64.allocate.
  destruct (_ <? _); [discriminate|].
  pose proof (b64_prorate_finished (Binary64.sum version monthly_contrib)
                (bal * m_rate)) as P.
  destruct (Binary64.prorate _ _ _); simpl; try congruence.
  match goal with |- context [Binary64.trim ?b ?p ?s] =>
    pose proof (b64_trim_finished b s p) as T;
    destruct (Binary64.trim b p s) end; simpl; congruence.
Qed.


Variable rounding : Z.



Lemma b64_commit_finished (st : Binary64.LoopState) (a : Binary64.Allocation) :
  Binary64.commit rounding st a <> Unfinished.
Proof.
  unfold Binary64.commit.
  pose proof (b64_round_finished (Binary64.paid a) rounding).
  destruct (Binary64.round (Binary64.paid a) rounding); simpl; try congruence.
  pose proof (b64_round_finished (Binary64.interest_due a) rounding).
  destruct (Binary64.round (Binary64.interest_due a) rounding); simpl;
    try congruence.
  match goal with |- context [Binary64.round (?x - ?y) rounding] =>
    pose proof (b64_round_finished (x - y) rounding);
    destruct (Binary64.round (x - y) rounding) end; simpl; try congruence.
  match goal with |- context [mapM ?f ?l] =>
    pose proof (b64_rounds_finished rounding l); destruct (mapM f l) end;
    simpl; congruence.
Qed.

Local Abbreviation period64 :=
  (Binary64.period version m_rate monthly_contrib rounding).
Local Abbreviation loop64 :=
  (fun fuel => Binary64.loop version fuel m_rate monthly_contrib rounding).
Local Abbreviation reachable64 :=
  (Binary64.reachable version m_rate monthly_contrib rounding).



Lemma b64_period_finished (st : Binary64.LoopState) : period64 st <> Unfinished.
Proof.
  unfold Binary64.period.
  pose proof (b64_allocate_finished (Binary64.balance st)).
  destruct (Binary64.allocate _ _ _ _) as [a| |]; simpl; try congruence.
  apply b64_commit_finished.
Qed.


(** ** The loop *)

Lemma b64_loop_returns (fuel : nat) (st0 st : Binary64.LoopState) :
  loop64 fuel st0 = Returns st ->
  reachable64 st0 st /\ (EPS <? Binary64.balance st) = false.
Proof.
  revert st0. induction fuel as [|fuel IH]; intros st0; simpl.
  - destruct (EPS <? Binary64.balance st0) eqn:E; [discriminate|].
    intros H; inversion H; subst. split; [constructor | exact E].
  - destruct (EPS <? Binary64.balance st0) eqn:E.
    + destruct (period64 st0) as [st1| |] eqn:P; try discriminate. simpl.
      intros H. apply IH in H as [Hr Hb].
      split; [econstructor; eassumption | exact Hb].
    + intros H; inversion H; subst. split; [constructor | exact E].
Qed.




End Period64.

(** ** The whole call *)










(** ** How a call ends *)







(** ** The examples on binary64, checked *)


(** Contributions of 1 and 4 on a balance of 384 at 9.375% a year: the
    interest is 3, the parts are the doubles next above 0.6 and 2.4, and
    they add up to more than 3, with either algorithm of [sum]. *)
Lemma interest_proration_counterexample :
  forall version,
  exists a s,
    Binary64.allocate version (0.09375 / 12) [1; 4] 384 = Returns a
    /\ Binary64.interest_due a = 3
    /\ (Binary64.sum version (Binary64.interest_parts a)
        =? Binary64.interest_due a) = false
    /\ Binary64.exact_sum (Binary64.interest_parts a) = Some s
    /\ (3 < s)%Q.
Proof.
  intros []; eexists; eexists;
    (split; [vm_compute; reflexivity|]);
    (split; [reflexivity|]); (split; [reflexivity|]);
    (split; [vm_compute; reflexivity|]); reflexivity.
Defined.


(** Contributions of 1 and 5 on a balance of 1 at 9.375% a year: the
    principal 5.9921875 exceeds the balance, and the trimmed parts add up
    to less than the balance, with either algorithm of [sum]. *)
Lemma final_period_trimming_counterexample :
  forall version,
  exists a s,
    Binary64.allocate version (0.09375 / 12) [1; 5] 1 = Returns a
    /\ (1 <? Binary64.principal_paid0 a) = true
    /\ Binary64.paid a = 1
    /\ (Binary64.sum version (Binary64.principal_parts a) =? 1) = false
    /\ Binary64.exact_sum (Binary64.principal_parts a) = Some s
    /\ (s < 1)%Q.
Proof.
  intros []; eexists; eexists;
    (split; [vm_compute; reflexivity|]);
    (split; [reflexivity|]); (split; [reflexivity|]); (split; [reflexivity|]);
    (split; [vm_compute; reflexivity|]); reflexivity.
Defined.

(** Contributions of 7 and 18 on a balance of 3200 at 9.375% a year: the
    interest is 25, the check passes, and the first borrower's principal
    part is negative, before the trim and after it. *)
Lemma equity_monotone_counterexample :
  forall version,
  exists a,
    Binary64.allocate version (0.09375 / 12) [7; 18] 3200 = Returns a
    /\ (Binary64.contrib_sum a <? Binary64.interest_due a) = false
    /\ (nth 0 (Binary64.principal_parts0 a) 0 <? 0) = true
    /\ (nth 0 (Binary64.principal_parts a) 0 <? 0) = true.
Proof.
  intros []; eexists; (split; [vm_compute; reflexivity|]);
    repeat split; reflexivity.
Defined.






End Binary64Facts.
